(** * Route search by genetic algorithm: model and properties

    A shallow embedding of [station_route.py] (classes [Station], [Route])
    and [gen_alg_LUstations.py] (the genetic algorithm).

    Conventions of the model.
    - A [Station] object is known to the algorithm only through its identity
      (the class defines neither [__eq__] nor [__hash__]) and through its
      [time_to] dictionary; a station is a reference, [time_to] is read from
      a store that the algorithm never writes.
    - Python lists of stations and [Route] objects live in a store: a
      [Route] keeps a reference to the very list it was built from, and the
      list methods [remove], [insert] and item assignment update the store
      in place.
    - Numbers are exact rationals: journey times, fitness, cumulative sums
      and random draws are elements of [Q], so rounding of machine floats is
      not part of the model.  Division by zero gives [0] in [Q] where
      [numpy] gives [inf]: a statement that rests on fitness values assumes
      positive durations.
    - The module-level generator of [random] is a component of the state;
      its algorithm is a parameter ([RandomSource]).
    - [while] loops take fuel; [Diverge] is the outcome of a loop that is
      still running when the fuel is spent. *)

From Stdlib Require Import ZArith QArith Qabs Lia.
From stdpp Require Import base option list gmap.

#[local] Set Warnings "-clear-no-such-hyp".

Local Open Scope Q_scope.

(** ** Stations, routes and the store *)

(** Reference to a [Station] object. *)
Definition Station := nat.

(** A [Route] object: [path] refers to a list in the store. *)
Record Route := mkRoute { path : nat; time_taken : Q }.

(** Exceptions of the Python run-time that the algorithm can meet.
    [KeyError k] is the failed dictionary lookup of key [k]; [Dangling]
    stands for a reference that is not in the store, which no Python
    program can produce. *)
Inductive exn :=
| ValueError
| IndexError
| KeyError (k : Station)
| Dangling.

Inductive outcome (A : Type) :=
| Ok (a : A)
| Raise (e : exn)
| Diverge.
Arguments Ok {A} a.
Arguments Raise {A} e.
Arguments Diverge {A}.

(** The generator behind [random.seed], [random.random], [random.randint]
    and [random.sample], with the contracts of the Python documentation. *)
Class RandomSource := {
  rng : Type;
  rng_seed : Z → rng;
  rng_random : rng → Q * rng;
  rng_randint : Z → Z → rng → Z * rng;
  rng_sample : list Station → nat → rng → list Station * rng;
  rng_random_range : ∀ g, 0 <= (rng_random g).1 ∧ (rng_random g).1 < 1;
  rng_randint_range : ∀ a b g, (a ≤ b)%Z →
    (a ≤ (rng_randint a b g).1 ≤ b)%Z;
  rng_sample_perm : ∀ p g, (rng_sample p (length p) g).1 ≡ₚ p
}.

(** A small generator for the examples: the state counts the draws made so
    far; [random()] walks through the quarters, [randint] through its range
    and [sample] rotates the list. *)
Definition cycle_random (g : nat) : Q * nat :=
  (Z.of_nat (g mod 4) # 4, S g).

Definition cycle_randint (a b : Z) (g : nat) : Z * nat :=
  ((a + Z.of_nat g mod (b - a + 1))%Z, S g).

Definition cycle_sample (p : list Station) (k : nat) (g : nat)
  : list Station * nat :=
  (take k (rotate g p), S g).

#[export, refine] Instance cycle_rng : RandomSource := {|
  rng := nat;
  rng_seed := Z.abs_nat;
  rng_random := cycle_random;
  rng_randint := cycle_randint;
  rng_sample := cycle_sample
|}.
Proof.
  - intros g. unfold cycle_random, Qle, Qlt. simpl.
    pose proof (Nat.mod_upper_bound g 4). lia.
  - intros a b g Hab. unfold cycle_randint. simpl.
    pose proof (Z.mod_pos_bound (Z.of_nat g) (b - a + 1)). lia.
  - intros p g. unfold cycle_sample. simpl.
    rewrite firstn_all2 by (by rewrite length_rotate).
    unfold rotate. rewrite Permutation_app_comm. by rewrite take_drop.
Defined.

Section Model.

Context `{RS : RandomSource}.

(** [time_to s] is the dictionary [s.time_to]. *)
Variable time_to : Station → gmap Station Q.

(** The square root behind [numpy.std]. *)
Variable np_sqrt : Q → Q.

Record state := mkState {
  gen : rng;
  lists : list (list Station);
  routes : list Route
}.

Definition M (A : Type) : Type := state → outcome (A * state).

#[export] Instance M_ret : MRet M := λ A a s, Ok (a, s).
#[export] Instance M_bind : MBind M := λ A B f m s,
  match m s with
  | Ok (a, s') => f a s'
  | Raise e => Raise e
  | Diverge => Diverge
  end.

Definition raise {A} (e : exn) : M A := λ _, Raise e.
Definition diverge {A} : M A := λ _, Diverge.

Definition lift_option {A} (e : exn) (o : option A) : M A :=
  match o with Some a => mret a | None => raise e end.

(** *** Store primitives *)

Definition new_list (p : list Station) : M nat :=
  λ s, Ok (length (lists s),
           mkState (gen s) (lists s ++ [p]) (routes s)).

Definition get_list (l : nat) : M (list Station) :=
  λ s, match lists s !! l with
       | Some p => Ok (p, s)
       | None => Raise Dangling
       end.

Definition set_list (l : nat) (p : list Station) : M unit :=
  λ s, Ok (tt, mkState (gen s) (<[l := p]> (lists s)) (routes s)).

Definition new_route (r : Route) : M nat :=
  λ s, Ok (length (routes s),
           mkState (gen s) (lists s) (routes s ++ [r])).

Definition get_route (r : nat) : M Route :=
  λ s, match routes s !! r with
       | Some o => Ok (o, s)
       | None => Raise Dangling
       end.

(** *** Python list methods, on a list of the store *)

(** First position of [x], as [list.index] and [list.remove] look for it. *)
Fixpoint index_of (x : Station) (p : list Station) : option nat :=
  match p with
  | [] => None
  | y :: p' => if decide (y = x) then Some 0%nat else S <$> index_of x p'
  end.

Fixpoint remove_first (x : Station) (p : list Station)
  : option (list Station) :=
  match p with
  | [] => None
  | y :: p' => if decide (y = x) then Some p'
               else (y ::.) <$> remove_first x p'
  end.

(** [list.insert(i, x)] for [i >= 0]: past the end it appends. *)
Definition insert_at {A} (i : nat) (x : A) (p : list A) : list A :=
  take i p ++ x :: drop i p.

(** [l[:]] *)
Definition list_copy (l : nat) : M nat := p ← get_list l; new_list p.

(** [l[a:b]] for [0 <= a], [0 <= b]; the slice is only read. *)
Definition list_slice (l : nat) (a b : nat) : M (list Station) :=
  p ← get_list l; mret (take (b - a) (drop a p)).

Definition list_len (l : nat) : M nat := p ← get_list l; mret (length p).

Definition list_getitem (l : nat) (i : nat) : M Station :=
  p ← get_list l; lift_option IndexError (p !! i).

Definition list_setitem (l : nat) (i : nat) (x : Station) : M unit :=
  p ← get_list l;
  if decide (i < length p)%nat then set_list l (<[i := x]> p)
  else raise IndexError.

Definition list_remove (l : nat) (x : Station) : M unit :=
  p ← get_list l; p' ← lift_option ValueError (remove_first x p);
  set_list l p'.

Definition list_insert (l : nat) (i : nat) (x : Station) : M unit :=
  p ← get_list l; set_list l (insert_at i x p).

Definition list_index (l : nat) (x : Station) : M nat :=
  p ← get_list l; lift_option ValueError (index_of x p).

(** *** Module [random] *)

Definition random_seed (a : Z) : M unit :=
  λ s, Ok (tt, mkState (rng_seed a) (lists s) (routes s)).

Definition random_random : M Q :=
  λ s, let '(u, g) := rng_random (gen s) in
       Ok (u, mkState g (lists s) (routes s)).

(** [random.randint(a, b)] raises [ValueError] on an empty range. *)
Definition random_randint (a b : Z) : M Z :=
  λ s, if decide (a ≤ b)%Z then
         let '(n, g) := rng_randint a b (gen s) in
         Ok (n, mkState g (lists s) (routes s))
       else Raise ValueError.

(** [random.sample(l, k)]: a new list. *)
Definition random_sample (l : nat) (k : nat) : M nat :=
  p ← get_list l;
  if decide (k ≤ length p)%nat then
    (λ s, let '(q, g) := rng_sample p k (gen s) in
          Ok (q, mkState g (lists s) (routes s))) ≫= new_list
  else raise ValueError.

(** ** [station_route.py]: [Route.__init__] *)

(** The loop [for i in range(len(self.path) - 1)], [todo] being the indices
    still to visit and [duration] the running total. *)
Fixpoint duration_loop (p : list Station) (todo : list nat) (duration : Q)
  : outcome Q :=
  match todo with
  | [] => Ok duration
  | i :: todo' =>
      match p !! i, p !! (i + 1)%nat with
      | Some from_station, Some to_station =>
          match time_to from_station !! to_station with
          | Some d => duration_loop p todo' (duration + d)
          | None => Raise (KeyError to_station)
          end
      | _, _ => Raise IndexError
      end
  end.

Definition lift_outcome {A} (o : outcome A) : M A :=
  λ s, match o with
       | Ok a => Ok (a, s)
       | Raise e => Raise e
       | Diverge => Diverge
       end.

Definition Route__init__ (path_ref : nat) : M nat :=
  p ← get_list path_ref;
  duration ← lift_outcome (duration_loop p (seq 0 (length p - 1)) 0);
  new_route (mkRoute path_ref duration).

(** *** Loops *)

(** [for x in xs: a = body(x, a)] *)
Fixpoint for_each {A B} (xs : list B) (body : B → A → M A) (a : A) : M A :=
  match xs with
  | [] => mret a
  | x :: xs' => a' ← body x a; for_each xs' body a'
  end.

(** [range(n)] of a Python integer: empty when [n <= 0]. *)
Definition range (n : Z) : list nat := seq 0 (Z.to_nat n).

(** ** [gen_alg_LUstations.py] *)

Definition CreateRoute (station_list : list Station)
  (first_station : Station) : M nat :=
  path ← new_list station_list;
  list_remove path first_station;;
  n ← list_len path;
  path ← random_sample path n;
  list_insert path 0 first_station;;
  Route__init__ path.

Definition CreateInitialPopulation (pop_size : Z)
  (station_list : list Station) (first_station : Station) : M (list nat) :=
  for_each (range pop_size)
    (λ _ population,
       route ← CreateRoute station_list first_station;
       mret (population ++ [route]))
    [].

(** [route.time_taken] for each route of a list. *)
Definition durations_of (population : list nat) : M (list Q) :=
  for_each population
    (λ route ds, o ← get_route route; mret (ds ++ [time_taken o])) [].

(** Stable insertion by key, the order [sorted(..., key=...)] produces. *)
Fixpoint insert_by_key (x : Q * nat) (l : list (Q * nat))
  : list (Q * nat) :=
  match l with
  | [] => [x]
  | y :: l' => if Qle_bool x.1 y.1 then x :: y :: l'
               else y :: insert_by_key x l'
  end.

Definition sort_by_key (l : list (Q * nat)) : list (Q * nat) :=
  foldr insert_by_key [] l.

Definition SortRoutes (population : list nat) : M (list nat) :=
  keys ← durations_of population;
  mret (sort_by_key (zip keys population)).*2.

(** A row of the data frame built by [SetParentsFitness]; the columns are
    [Route] (0), [Fitness] (1), [Cum_Sum] (2) and [CDF] (3). *)
Record row := mkRow {
  row_Route : nat;
  row_Fitness : Q;
  row_Cum_Sum : Q;
  row_CDF : Q
}.

(** [Series.cumsum()] *)
Fixpoint cumsum_from (acc : Q) (xs : list Q) : list Q :=
  match xs with
  | [] => []
  | x :: xs' => (acc + x) :: cumsum_from (acc + x) xs'
  end.

Definition cumsum (xs : list Q) : list Q :=
  match xs with
  | [] => []
  | x :: xs' => x :: cumsum_from x xs'
  end.

(** [Series.sum()], [numpy.sum] *)
Definition sum_Q (xs : list Q) : Q := fold_left Qplus xs 0.

Fixpoint zip_rows (rs : list nat) (fs cs ds : list Q) : list row :=
  match rs, fs, cs, ds with
  | r :: rs', f :: fs', c :: cs', d :: ds' =>
      mkRow r f c d :: zip_rows rs' fs' cs' ds'
  | _, _, _, _ => []
  end.

Definition SetParentsFitness (sorted_routes : list nat) : M (list row) :=
  ds ← durations_of sorted_routes;
  let Fitness := (λ d, 1 / d) <$> ds in
  let Cum_Sum := cumsum Fitness in
  let total := sum_Q Fitness in
  let CDF := (λ c, c / total) <$> Cum_Sum in
  mret (zip_rows sorted_routes Fitness Cum_Sum CDF).

(** [father[-1] = route] *)
Definition set_last (father : list nat) (route : nat) : option (list nat) :=
  match father with
  | [] => None
  | _ => Some (removelast father ++ [route])
  end.

(** The loop [for m_parent in range(parents.shape[0])] of the re-draw, over
    the rows not yet visited: the first row whose CDF reaches [pick_father]
    replaces the last father, then [break]. *)
Fixpoint rescan (rest : list row) (pick_father : Q) (father : list nat)
  : M (list nat) :=
  match rest with
  | [] => mret father
  | m_parent :: rest' =>
      if Qle_bool pick_father (row_CDF m_parent)
      then lift_option IndexError (set_last father (row_Route m_parent))
      else rescan rest' pick_father father
  end.

(** [while mother[-1] == father[-1]]: routes are compared by identity. *)
Fixpoint reroll_father (fuel : nat) (parents : list row)
  (mother father : list nat) : M (list nat) :=
  m ← lift_option IndexError (last mother);
  f ← lift_option IndexError (last father);
  if decide (m = f) then
    match fuel with
    | O => diverge
    | S fuel' =>
        pick_father ← random_random;
        father ← rescan parents pick_father father;
        reroll_father fuel' parents mother father
    end
  else mret father.

(** The loop [for parent in range(parents.shape[0])] of [SelectParents],
    over the rows not yet visited; row [parent] is the head of [rest]. *)
Fixpoint scan_parents (fuel : nat) (parents rest : list row)
  (pick_mother pick_father : Q) (mother_selected father_selected : bool)
  (mother father : list nat) : M (list nat * list nat) :=
  match rest with
  | [] => mret (mother, father)
  | parent :: rest' =>
      let '(mother, mother_selected) :=
        if Qle_bool pick_mother (row_CDF parent) && negb mother_selected
        then (mother ++ [row_Route parent], true)
        else (mother, mother_selected) in
      let '(father, father_selected) :=
        if Qle_bool pick_father (row_CDF parent) && negb father_selected
        then (father ++ [row_Route parent], true)
        else (father, father_selected) in
      if mother_selected && father_selected then
        father ← reroll_father fuel parents mother father;
        mret (mother, father)
      else
        scan_parents fuel parents rest' pick_mother pick_father
          mother_selected father_selected mother father
  end.

(** One turn of the loop [for mating in range(...)] of [SelectParents]. *)
Definition select_pair (fuel : nat) (parents : list row)
  (mother father : list nat) : M (list nat * list nat) :=
  pick_mother ← random_random;
  pick_father ← random_random;
  scan_parents fuel parents parents pick_mother pick_father
    false false mother father.

Definition SelectParents (fuel : nat) (parents : list row) (elite_size : Z)
  : M (list nat * list nat) :=
  for_each (range (Z.of_nat (length parents) - elite_size))
    (λ _ '(mother, father), select_pair fuel parents mother father)
    ([], []).

(** [while genes[0] == genes[1]: genes[1] = random.randint(1, hi)] *)
Fixpoint reroll_gene (fuel : nat) (hi : Z) (gene0 gene1 : Z) : M Z :=
  if decide (gene0 = gene1) then
    match fuel with
    | O => diverge
    | S fuel' =>
        gene1 ← random_randint 1 hi; reroll_gene fuel' hi gene0 gene1
    end
  else mret gene1.

(** Two distinct random integers in [1 .. n-1]. *)
Definition draw_genes (fuel : nat) (n : nat) : M (Z * Z) :=
  gene0 ← random_randint 1 (Z.of_nat n - 1);
  gene1 ← random_randint 1 (Z.of_nat n - 1);
  gene1 ← reroll_gene fuel (Z.of_nat n - 1) gene0 gene1;
  mret (gene0, gene1).

(** Lines 213-223 of [Procreate]: the child's list, from the lists of the
    mother and of the father and the two cut points. *)
Definition splice (mother_path father_path : nat)
  (first_gene last_gene : nat) : M nat :=
  child ← list_copy mother_path;
  segment ← list_slice father_path first_gene last_gene;
  for_each segment (λ gene _, list_remove child gene) tt;;
  segment ← list_slice father_path first_gene last_gene;
  for_each segment
    (λ gene _, i ← list_index father_path gene; list_insert child i gene)
    tt;;
  mret child.

(** One turn of the loop [for mating in range(len(mother))]. *)
Definition mate (fuel : nat) (mother father : list nat) (mating : nat)
  : M nat :=
  f ← lift_option IndexError (father !! mating);
  fo ← get_route f;
  n ← list_len (path fo);
  '(gene0, gene1) ← draw_genes fuel n;
  let first_gene := Z.min gene0 gene1 in
  let last_gene := Z.max gene0 gene1 in
  m ← lift_option IndexError (mother !! mating);
  mo ← get_route m;
  child ← splice (path mo) (path fo)
             (Z.to_nat first_gene) (Z.to_nat last_gene);
  Route__init__ child.

Definition Procreate (fuel : nat) (parents : list row) (elite_size : Z)
  : M (list nat) :=
  children ← for_each (range elite_size)
    (λ elite children,
       r ← lift_option IndexError (parents !! elite);
       mret (children ++ [row_Route r]))
    [];
  '(mother, father) ← SelectParents fuel parents elite_size;
  for_each (seq 0 (length mother))
    (λ mating children,
       child ← mate fuel mother father mating;
       mret (children ++ [child]))
    children.

(** One turn of the loop of [Mutate]. *)
Definition mutate_one (fuel : nat) (mutation_rate : Q) (child : nat)
  (children : list nat) : M (list nat) :=
  mutate_roll ← random_random;
  if Qle_bool mutate_roll mutation_rate then
    r ← lift_option IndexError (children !! child);
    o ← get_route r;
    mutate_path ← list_copy (path o);
    let children := delete child children in
    n ← list_len mutate_path;
    '(gene0, gene1) ← draw_genes fuel n;
    x1 ← list_getitem mutate_path (Z.to_nat gene1);
    x0 ← list_getitem mutate_path (Z.to_nat gene0);
    list_setitem mutate_path (Z.to_nat gene0) x1;;
    list_setitem mutate_path (Z.to_nat gene1) x0;;
    route ← Route__init__ mutate_path;
    mret (insert_at child route children)
  else mret children.

Definition Mutate (fuel : nat) (children : list nat) (mutation_rate : Q)
  : M (list nat) :=
  for_each (seq 0 (length children)) (mutate_one fuel mutation_rate)
    children.

Definition CreateNextGeneration (fuel : nat) (previous_generation : list nat)
  (elite_size : Z) (mutation_rate : Q) : M (list nat) :=
  parents ← SetParentsFitness previous_generation;
  children ← Procreate fuel parents elite_size;
  next_generation ← Mutate fuel children mutation_rate;
  SortRoutes next_generation.

(** [numpy.mean] and [numpy.std] *)
Definition np_mean (xs : list Q) : Q :=
  sum_Q xs / inject_Z (Z.of_nat (length xs)).

Definition np_std (xs : list Q) : Q :=
  let m := np_mean xs in
  np_sqrt (np_mean ((λ x, Qabs (x - m) * Qabs (x - m)) <$> xs)).

(** What a generation adds to the two histories. *)
Definition record_generation (population : list nat)
  (best_route_gen : list Q) (mean_sigma_gen : list (Q * Q))
  : M (list Q * list (Q * Q)) :=
  r ← lift_option IndexError (population !! 0%nat);
  o ← get_route r;
  route_durations ← durations_of population;
  mret (best_route_gen ++ [time_taken o],
        mean_sigma_gen ++ [(np_mean route_durations,
                            np_std route_durations)]).

(** The loop [for gen in range(n_generations)]; the [print] is left out. *)
Definition generations (fuel : nat) (n_generations : Z) (elite_size : Z)
  (mutation_rate : Q)
  : list nat * (list Q * list (Q * Q))
    → M (list nat * (list Q * list (Q * Q))) :=
  for_each (range n_generations)
    (λ _ '(population, (best_route_gen, mean_sigma_gen)),
       population ←
         CreateNextGeneration fuel population elite_size mutation_rate;
       hist ← record_generation population best_route_gen mean_sigma_gen;
       mret (population, hist)).

(** The population with which [GeneticAlgorithm] enters its loop. *)
Definition first_generation (station_list : list Station)
  (first_station : Station) (pop_size : Z) (random_seed_ : Z)
  : M (list nat) :=
  random_seed random_seed_;;
  population ←
    CreateInitialPopulation pop_size station_list first_station;
  SortRoutes population.

(** [GeneticAlgorithm] up to the end of its loop, run for [k] generations:
    the population and the two histories at that point. *)
Definition evolve (fuel : nat) (station_list : list Station)
  (first_station : Station) (k pop_size elite_size : Z)
  (mutation_rate : Q) (random_seed_ : Z)
  : M (list nat * (list Q * list (Q * Q))) :=
  population ←
    first_generation station_list first_station pop_size random_seed_;
  hist ← record_generation population [] [];
  generations fuel k elite_size mutation_rate (population, hist).

Definition GeneticAlgorithm (fuel : nat) (station_list : list Station)
  (first_station : Station) (n_generations pop_size elite_size : Z)
  (mutation_rate : Q) (random_seed_ : Z)
  : M (list Q * list (Q * Q) * list (row * Q)) :=
  '(population, (best_route_gen, mean_sigma_gen)) ←
    evolve fuel station_list first_station n_generations pop_size
      elite_size mutation_rate random_seed_;
  final_gen_df ← SetParentsFitness population;
  Duration ← durations_of (row_Route <$> final_gen_df);
  mret (best_route_gen, mean_sigma_gen, zip final_gen_df Duration).

End Model.

(** ** Reference definitions, in the words of the specification *)

(** Duration of the leg from position [i] to position [i+1] of a path, from
    the duration mapping of the location at position [i]. *)
Definition leg (time_to : Station → gmap Station Q) (p : list Station)
  (i : nat) : option Q :=
  a ← p !! i; b ← p !! S i; time_to a !! b.

(** Sum over [i = 0 .. n-2] of the pairwise durations. *)
Definition sum_of_legs (time_to : Station → gmap Station Q)
  (p : list Station) : Q :=
  foldr Qplus 0 ((λ i, default 0 (leg time_to p i)) <$> seq 0 (length p - 1)).

(** The father's segment taken out of the mother's path, one location after
    the other. *)
Fixpoint remove_all (segment : list Station) (child : list Station)
  : option (list Station) :=
  match segment with
  | [] => Some child
  | gene :: segment' =>
      child' ← remove_first gene child; remove_all segment' child'
  end.

(** The segment put back, in segment order, each location at the index it
    has in the father's full path, against the child as it then stands. *)
Fixpoint insert_all (father : list Station) (segment : list Station)
  (child : list Station) : option (list Station) :=
  match segment with
  | [] => Some child
  | gene :: segment' =>
      i ← index_of gene father;
      insert_all father segment' (insert_at i gene child)
  end.

Definition recombine (mother father : list Station) (lo hi : nat)
  : option (list Station) :=
  let segment := take (hi - lo) (drop lo father) in
  child ← remove_all segment mother; insert_all father segment child.

(** The store [s'] holds everything that [s] holds, unchanged. *)
Definition extends `{RS : RandomSource} (s s' : state) : Prop :=
  lists s `prefix_of` lists s' ∧ routes s `prefix_of` routes s'.

(** The path of route [r], read through the store. *)
Definition path_of `{RS : RandomSource} (s : state) (r : nat)
  : option (list Station) :=
  o ← routes s !! r; lists s !! path o.

(** ** Example data *)

(** Four stations [0 .. 3] with a complete, symmetric table of positive
    journey times. *)
Definition ex_time_to (a : Station) : gmap Station Q :=
  list_to_map
    ((λ b : nat, (b, inject_Z (Z.of_nat (1 + a * b + a + b)))) <$>
     filter (λ b, b ≠ a) (seq 0 4)).

(** The same table with the entry from station 2 to station 1 missing. *)
Definition ex_time_to_gap (a : Station) : gmap Station Q :=
  if decide (a = 2%nat) then delete 1%nat (ex_time_to a) else ex_time_to a.

(** A rational stand-in for the square root: the integer square root of
    the value scaled by [10^6], over [10^3]. *)
Definition ex_sqrt (q : Q) : Q :=
  Z.sqrt (Qnum q * 1000000 / Zpos (Qden q)) # 1000.

(** A store with the two paths of the crossover scenario. *)
Definition ex_parents : state :=
  mkState (RS := cycle_rng) 0%nat
    [[0; 1; 2; 3; 4; 5]; [0; 5; 1; 4; 3; 2]]%nat [].

(** A store with one path over the four stations. *)
Definition ex_store : state :=
  mkState (RS := cycle_rng) 0%nat [[0; 2; 1; 3]]%nat [].

(** An empty store. *)
Definition ex_empty : state := mkState (RS := cycle_rng) 0%nat [] [].

(** The first generation of four routes over the four stations, from
    station 0 and with seed 7, and the store that holds it. *)
Definition ex_first : outcome (list nat * state) :=
  Eval vm_compute in
    first_generation ex_time_to [0; 1; 2; 3]%nat 0%nat 4 7 ex_empty.

Definition ex_population : list nat :=
  match ex_first with Ok (population, _) => population | _ => [] end.

Definition ex_gen0 : state :=
  match ex_first with Ok (_, s) => s | _ => ex_empty end.

(** The selection table of that generation. *)
Definition ex_table : list row :=
  Eval vm_compute in
    match SetParentsFitness ex_population ex_gen0 with
    | Ok (parents, _) => parents
    | _ => []
    end.







(** The list [p] after [p[i], p[j] = p[j], p[i]]. *)
Definition swap_items (p : list Station) (i j : nat) : list Station :=
  match p !! j, p !! i with
  | Some x1, Some x0 => <[j := x0]> (<[i := x1]> p)
  | _, _ => p
  end.

(** A path over the location set: the start location in front, every
    location exactly once. *)
Definition valid_path (station_list : list Station)
  (first_station : Station) (p : list Station) : Prop :=
  p !! 0%nat = Some first_station ∧ p ≡ₚ station_list.

Definition valid_route `{RS : RandomSource} (station_list : list Station)
  (first_station : Station) (s : state) (r : nat) : Prop :=
  ∃ p, path_of s r = Some p ∧ valid_path station_list first_station p.

(** Only the generator differs between [s] and [s']. *)
Definition same_store `{RS : RandomSource} (s s' : state) : Prop :=
  lists s' = lists s ∧ routes s' = routes s.


(** The route [r] was built after the store [s0]: a route object that [s0]
    does not hold, on a list that [s0] does not hold, with the duration
    computed from that list. *)
Definition built `{RS : RandomSource} (time_to : Station → gmap Station Q)
  (s0 s : state) (r : nat) : Prop :=
  (length (routes s0) ≤ r)%nat ∧
  ∃ o p, routes s !! r = Some o ∧ (length (lists s0) ≤ path o)%nat ∧
         lists s !! path o = Some p ∧
         duration_loop time_to p (seq 0 (length p - 1)) 0
           = Ok (time_taken o).


(** The route [r] is a child bred after the store [s0] from two routes of
    [candidates]: its path is the recombination of their paths at two cut
    points [1 <= lo < hi] below the path length. *)
Definition crossed `{RS : RandomSource} (time_to : Station → gmap Station Q)
  (candidates : list nat) (s0 s : state) (r : nat) : Prop :=
  built time_to s0 s r ∧
  ∃ m f mother father lo hi child,
    m ∈ candidates ∧ f ∈ candidates ∧
    path_of s m = Some mother ∧ path_of s f = Some father ∧
    (1 ≤ lo < hi)%nat ∧ (hi < length father)%nat ∧
    recombine mother father lo hi = Some child ∧
    path_of s r = Some child.

(** The route [r'] was built after the store [s0] from the route [r], with
    two distinct positions other than the first one swapped. *)
Definition mutated `{RS : RandomSource} (time_to : Station → gmap Station Q)
  (s0 s : state) (r r' : nat) : Prop :=
  built time_to s0 s r' ∧
  ∃ p i j, path_of s r = Some p ∧ path_of s r' = Some (swap_items p i j) ∧
           (1 ≤ i < length p)%nat ∧ (1 ≤ j < length p)%nat ∧ i ≠ j.



(** The two histories of a run, or how it ended otherwise. *)
Definition histories `{RS : RandomSource}
  (o : outcome (list Q * list (Q * Q) * list (row * Q) * state))
  : outcome (list Q * list (Q * Q)) :=
  match o with
  | Ok ((best_route_gen, mean_sigma_gen, _), _) =>
      Ok (best_route_gen, mean_sigma_gen)
  | Raise e => Raise e
  | Diverge => Diverge
  end.


(** The duration kept in route [r] is what the loop of [Route.__init__]
    gives on the path of [r] as the store has it. *)
Definition duration_stored `{RS : RandomSource}
  (time_to : Station → gmap Station Q) (s : state) (r : nat) : Prop :=
  ∃ o p, routes s !! r = Some o ∧ lists s !! path o = Some p ∧
         duration_loop time_to p (seq 0 (length p - 1)) 0
           = Ok (time_taken o).


(** ** Two runs side by side

    Two runs that start from stores of different sizes allocate at different
    references.  With [b1], [c1] the numbers of lists and of routes in the
    store of the first run when it starts, and [b2], [c2] those of the
    second, references correspond when they are at the same distance from
    these bases. *)
Section Correspondence.

Context `{RS : RandomSource}.
Variables b1 c1 b2 c2 : nat.

Definition same_list_ref (l1 l2 : nat) : Prop :=
  ∃ i, l1 = (b1 + i)%nat ∧ l2 = (b2 + i)%nat.

Definition same_route_ref (r1 r2 : nat) : Prop :=
  ∃ i, r1 = (c1 + i)%nat ∧ r2 = (c2 + i)%nat.

Definition same_route (o1 o2 : Route) : Prop :=
  same_list_ref (path o1) (path o2) ∧ time_taken o1 = time_taken o2.

Definition same_row (r1 r2 : row) : Prop :=
  same_route_ref (row_Route r1) (row_Route r2) ∧
  row_Fitness r1 = row_Fitness r2 ∧ row_Cum_Sum r1 = row_Cum_Sum r2 ∧
  row_CDF r1 = row_CDF r2.

(** The two stores hold the same things above their bases, and the
    generators are in the same state. *)
Definition sim (s1 s2 : state) : Prop :=
  gen s1 = gen s2 ∧
  (b1 ≤ length (lists s1))%nat ∧ (b2 ≤ length (lists s2))%nat ∧
  drop b1 (lists s1) = drop b2 (lists s2) ∧
  (c1 ≤ length (routes s1))%nat ∧ (c2 ≤ length (routes s2))%nat ∧
  Forall2 same_route (drop c1 (routes s1)) (drop c2 (routes s2)).

Definition sim_outcome {A B} (R : A → B → Prop)
  (o1 : outcome (A * state)) (o2 : outcome (B * state)) : Prop :=
  match o1, o2 with
  | Ok (a1, s1), Ok (a2, s2) => R a1 a2 ∧ sim s1 s2
  | Raise e1, Raise e2 => e1 = e2
  | Diverge, Diverge => True
  | _, _ => False
  end.

Definition sim_M {A B} (R : A → B → Prop) (m1 : M A) (m2 : M B) : Prop :=
  ∀ s1 s2, sim s1 s2 → sim_outcome R (m1 s1) (m2 s2).

End Correspondence.


(** ** Properties *)

Section Properties.

Context `{RS : RandomSource}.

(** *** The monad *)

Lemma bind_Ok {A B} (m : M A) (f : A → M B) s b s2 :
  (m ≫= f) s = Ok (b, s2) ↔ ∃ a s1, m s = Ok (a, s1) ∧ f a s1 = Ok (b, s2).
Proof.
  unfold mbind, M_bind. split.
  - destruct (m s) as [[a s1]| |]; [eauto | done | done].
  - intros (a & s1 & -> & ?). done.
Qed.

Lemma lift_outcome_Ok {A} (o : outcome A) s a s' :
  lift_outcome o s = Ok (a, s') ↔ o = Ok a ∧ s' = s.
Proof. destruct o; simpl; naive_solver. Qed.

Lemma lift_option_Ok {A} e (o : option A) s a s' :
  lift_option e o s = Ok (a, s') ↔ o = Some a ∧ s' = s.
Proof. destruct o; simpl; unfold mret, M_ret, raise; naive_solver. Qed.

Lemma get_list_Ok l s p s' :
  get_list l s = Ok (p, s') ↔ lists s !! l = Some p ∧ s' = s.
Proof. unfold get_list. destruct (lists s !! l); naive_solver. Qed.

Lemma get_route_Ok r s o s' :
  get_route r s = Ok (o, s') ↔ routes s !! r = Some o ∧ s' = s.
Proof. unfold get_route. destruct (routes s !! r); naive_solver. Qed.

(** *** The store *)

Lemma new_list_Ok p s l s' :
  new_list p s = Ok (l, s') ↔
  l = length (lists s) ∧ s' = mkState (gen s) (lists s ++ [p]) (routes s).
Proof. unfold new_list. naive_solver. Qed.

Lemma set_list_Ok l p s u s' :
  set_list l p s = Ok (u, s') ↔
  s' = mkState (gen s) (<[l := p]> (lists s)) (routes s).
Proof. unfold set_list. destruct u. naive_solver. Qed.

Lemma new_route_Ok o s r s' :
  new_route o s = Ok (r, s') ↔
  r = length (routes s) ∧ s' = mkState (gen s) (lists s) (routes s ++ [o]).
Proof. unfold new_route. naive_solver. Qed.

Lemma list_copy_Ok l s c s' :
  list_copy l s = Ok (c, s') ↔
  ∃ p, lists s !! l = Some p ∧ c = length (lists s) ∧
       s' = mkState (gen s) (lists s ++ [p]) (routes s).
Proof.
  unfold list_copy. rewrite bind_Ok. setoid_rewrite get_list_Ok.
  setoid_rewrite new_list_Ok. naive_solver.
Qed.

Lemma list_slice_Ok l a b s q s' :
  list_slice l a b s = Ok (q, s') ↔
  ∃ p, lists s !! l = Some p ∧ q = take (b - a) (drop a p) ∧ s' = s.
Proof.
  unfold list_slice. rewrite bind_Ok. setoid_rewrite get_list_Ok.
  unfold mret, M_ret. naive_solver.
Qed.

Lemma list_len_Ok l s n s' :
  list_len l s = Ok (n, s') ↔
  ∃ p, lists s !! l = Some p ∧ n = length p ∧ s' = s.
Proof.
  unfold list_len. rewrite bind_Ok. setoid_rewrite get_list_Ok.
  unfold mret, M_ret. naive_solver.
Qed.

Lemma list_getitem_Ok l i s x s' :
  list_getitem l i s = Ok (x, s') ↔
  ∃ p, lists s !! l = Some p ∧ p !! i = Some x ∧ s' = s.
Proof.
  unfold list_getitem. rewrite bind_Ok. setoid_rewrite get_list_Ok.
  setoid_rewrite lift_option_Ok. naive_solver.
Qed.

Lemma list_setitem_Ok l i x s u s' :
  list_setitem l i x s = Ok (u, s') ↔
  ∃ p, lists s !! l = Some p ∧ (i < length p)%nat ∧
       s' = mkState (gen s) (<[l := <[i := x]> p]> (lists s)) (routes s).
Proof.
  unfold list_setitem. rewrite bind_Ok. setoid_rewrite get_list_Ok.
  split.
  - intros (p & s1 & [Hp ->] & Hset). case_decide; [|done].
    apply set_list_Ok in Hset. eauto.
  - intros (p & Hp & Hi & ->). exists p, s. split; [done |].
    rewrite decide_True by done. by apply set_list_Ok.
Qed.

Lemma list_remove_Ok l x s u s' :
  list_remove l x s = Ok (u, s') ↔
  ∃ p p', lists s !! l = Some p ∧ remove_first x p = Some p' ∧
          s' = mkState (gen s) (<[l := p']> (lists s)) (routes s).
Proof.
  unfold list_remove. rewrite bind_Ok. setoid_rewrite get_list_Ok.
  setoid_rewrite bind_Ok. setoid_rewrite lift_option_Ok.
  setoid_rewrite set_list_Ok. naive_solver.
Qed.

Lemma list_insert_Ok l i x s u s' :
  list_insert l i x s = Ok (u, s') ↔
  ∃ p, lists s !! l = Some p ∧
       s' = mkState (gen s) (<[l := insert_at i x p]> (lists s)) (routes s).
Proof.
  unfold list_insert. rewrite bind_Ok. setoid_rewrite get_list_Ok.
  setoid_rewrite set_list_Ok. naive_solver.
Qed.

Lemma list_index_Ok l x s i s' :
  list_index l x s = Ok (i, s') ↔
  ∃ p, lists s !! l = Some p ∧ index_of x p = Some i ∧ s' = s.
Proof.
  unfold list_index. rewrite bind_Ok. setoid_rewrite get_list_Ok.
  setoid_rewrite lift_option_Ok. naive_solver.
Qed.

Lemma insert_snoc {A} (L : list A) (x y : A) :
  <[length L := y]> (L ++ [x]) = L ++ [y].
Proof.
  rewrite insert_app_r_alt by lia. by rewrite Nat.sub_diag.
Qed.

Lemma lookup_snoc {A} (L : list A) (x : A) : (L ++ [x]) !! length L = Some x.
Proof. by apply list_lookup_middle. Qed.

(** *** Crossover: the list operations of [Procreate] *)

Lemma bind_eval {A B} (m : M A) (f : A → M B) s a s1 :
  m s = Ok (a, s1) → (m ≫= f) s = f a s1.
Proof. unfold mbind, M_bind. by intros ->. Qed.

Lemma bind_fail {A B} (m : M A) (f : A → M B) s e :
  m s = Raise e → (m ≫= f) s = Raise e.
Proof. unfold mbind, M_bind. by intros ->. Qed.


Lemma bind_assoc {A B C} (m : M A) (f : A → M B) (k : B → M C) s :
  ((m ≫= f) ≫= k) s = (m ≫= λ a, f a ≫= k) s.
Proof. unfold mbind, M_bind. by destruct (m s) as [[a s1]| |]. Qed.

Lemma bind_ext {A B} (m : M A) (f k : A → M B) s :
  (∀ a s1, m s = Ok (a, s1) → f a s1 = k a s1) → (m ≫= f) s = (m ≫= k) s.
Proof.
  unfold mbind, M_bind. intros Hfk.
  destruct (m s) as [[a s1]| |]; [by apply Hfk | done | done].
Qed.



Lemma list_remove_run l x s p :
  lists s !! l = Some p →
  list_remove l x s =
  match remove_first x p with
  | Some p' => Ok (tt, mkState (gen s) (<[l := p']> (lists s)) (routes s))
  | None => Raise ValueError
  end.
Proof.
  intros Hl. unfold list_remove, mbind, M_bind, get_list. rewrite Hl.
  by destruct (remove_first x p).
Qed.

Lemma list_index_run l x s p :
  lists s !! l = Some p →
  list_index l x s =
  match index_of x p with
  | Some i => Ok (i, s)
  | None => Raise ValueError
  end.
Proof.
  intros Hl. unfold list_index, mbind, M_bind, get_list. rewrite Hl.
  by destruct (index_of x p).
Qed.

Lemma list_insert_run l i x s p :
  lists s !! l = Some p →
  list_insert l i x s =
  Ok (tt, mkState (gen s) (<[l := insert_at i x p]> (lists s)) (routes s)).
Proof. intros Hl. unfold list_insert, mbind, M_bind, get_list. by rewrite Hl. Qed.

Lemma remove_loop_run g (L : list (list Station)) R segment p :
  for_each segment (λ gene _, list_remove (length L) gene) tt
    (mkState g (L ++ [p]) R) =
  match remove_all segment p with
  | Some p' => Ok (tt, mkState g (L ++ [p']) R)
  | None => Raise ValueError
  end.
Proof.
  revert p. induction segment as [|gene segment IH]; intros p; [done |].
  simpl.
  pose proof (list_remove_run (length L) gene (mkState g (L ++ [p]) R) p
                (lookup_snoc L p)) as Hrun.
  destruct (remove_first gene p) as [p'|]; simpl in *.
  - rewrite (bind_eval _ _ _ _ _ Hrun), insert_snoc. apply IH.
  - by rewrite (bind_fail _ _ _ _ Hrun).
Qed.

Lemma insert_loop_run g (L : list (list Station)) R f father segment p :
  L !! f = Some father →
  for_each segment
    (λ gene _, i ← list_index f gene; list_insert (length L) i gene) tt
    (mkState g (L ++ [p]) R) =
  match insert_all father segment p with
  | Some p' => Ok (tt, mkState g (L ++ [p']) R)
  | None => Raise ValueError
  end.
Proof.
  intros Hf. revert p.
  induction segment as [|gene segment IH]; intros p; [done |].
  simpl.
  pose proof (list_index_run f gene (mkState g (L ++ [p]) R) father
                (lookup_app_l_Some _ _ _ _ Hf)) as Hrun.
  destruct (index_of gene father) as [i|]; simpl in *.
  - erewrite bind_eval; [apply IH |].
    rewrite (bind_eval _ _ _ _ _ Hrun).
    rewrite (list_insert_run _ _ _ _ p) by apply lookup_snoc.
    simpl. by rewrite insert_snoc.
  - by rewrite (bind_fail _ _ _ _ (bind_fail _ _ _ _ Hrun)).
Qed.

Lemma splice_run mother_path father_path lo hi s mother father :
  lists s !! mother_path = Some mother →
  lists s !! father_path = Some father →
  splice mother_path father_path lo hi s =
  match recombine mother father lo hi with
  | Some child =>
      Ok (length (lists s),
          mkState (gen s) (lists s ++ [child]) (routes s))
  | None => Raise ValueError
  end.
Proof.
  intros Hm Hf. unfold splice, recombine.
  unfold list_copy, list_slice, mbind at 1, M_bind at 1,
    mbind at 1, M_bind at 1, get_list. rewrite Hm. simpl.
  unfold mbind at 1, M_bind at 1, mbind at 1, M_bind at 1, get_list. simpl.
  rewrite (lookup_app_l_Some _ _ _ _ Hf). simpl.
  unfold mbind at 1, M_bind at 1.
  rewrite remove_loop_run.
  destruct (remove_all _ mother) as [child|]; [|done]. simpl.
  unfold mbind at 1, M_bind at 1, mbind at 1, M_bind at 1,
    mbind at 1, M_bind at 1, get_list. simpl.
  rewrite (lookup_app_l_Some _ _ _ _ Hf). simpl.
  rewrite (insert_loop_run _ _ _ _ father) by done.
  by destruct (insert_all _ _ child).
Qed.

(** C1. With the mother's path [A,B,C,D,E,F], the father's path
    [A,F,B,E,D,C] and the cut points 2 and 5, the list operations of the
    crossover leave exactly [A,C,B,E,D,F] in a new list of the store: the
    father's segment [father[2:5]] is taken out of a copy of the mother's
    path, and its locations are put back one after the other, in segment
    order, each at the index it has in the father's full path, against the
    child as it stands at that step ([recombine]). *)
Theorem crossover_scenario (s : state) (mother_path father_path : nat)
  (A B C D E F : Station) :
  NoDup [A; B; C; D; E; F] →
  lists s !! mother_path = Some [A; B; C; D; E; F] →
  lists s !! father_path = Some [A; F; B; E; D; C] →
  splice mother_path father_path 2 5 s =
    Ok (length (lists s),
        mkState (gen s) (lists s ++ [[A; C; B; E; D; F]]) (routes s))
  ∧ take (5 - 2) (drop 2 [A; F; B; E; D; C]) = [B; E; D]
  ∧ remove_all [B; E; D] [A; B; C; D; E; F] = Some [A; C; F]
  ∧ insert_all [A; F; B; E; D; C] [B; E; D] [A; C; F]
    = Some (insert_at 4 D (insert_at 3 E (insert_at 2 B [A; C; F])))
  ∧ insert_at 4 D (insert_at 3 E (insert_at 2 B [A; C; F]))
    = [A; C; B; E; D; F].
Proof.
  intros Hnd Hm Hf.
  assert (Hne : A ≠ B ∧ A ≠ C ∧ A ≠ D ∧ A ≠ E ∧ A ≠ F ∧ B ≠ C ∧ B ≠ D ∧
                B ≠ E ∧ B ≠ F ∧ C ≠ D ∧ C ≠ E ∧ C ≠ F ∧ D ≠ E ∧ D ≠ F ∧
                E ≠ F).
  { repeat match goal with
           | H : NoDup (_ :: _) |- _ => apply NoDup_cons in H as [? H]
           end.
    set_solver. }
  destruct Hne as (?&?&?&?&?&?&?&?&?&?&?&?&?&?&?).
  assert (Hrem : remove_all [B; E; D] [A; B; C; D; E; F] = Some [A; C; F]).
  { simpl. by repeat (case_decide; try congruence; simpl). }
  assert (Hins : insert_all [A; F; B; E; D; C] [B; E; D] [A; C; F]
    = Some (insert_at 4 D (insert_at 3 E (insert_at 2 B [A; C; F])))).
  { simpl. by repeat (case_decide; try congruence; simpl). }
  split_and!; [|done|done|done|done].
  rewrite (splice_run _ _ _ _ _ _ _ Hm Hf). unfold recombine.
  change (take (5 - 2) (drop 2 [A; F; B; E; D; C])) with [B; E; D].
  rewrite Hrem. cbn [mbind option_bind]. by rewrite Hins.
Qed.

(** *** Parent selection *)

Lemma random_random_run s :
  ∃ u g, random_random s = Ok (u, mkState g (lists s) (routes s)) ∧
         0 <= u ∧ u < 1.
Proof.
  unfold random_random. pose proof (rng_random_range (gen s)) as Hr.
  destruct (rng_random (gen s)) as [u g]. simpl in Hr. exists u, g. tauto.
Qed.





Lemma reroll_father_eq fuel parents mother father :
  reroll_father fuel parents mother father =
  (m ← lift_option IndexError (last mother);
   f ← lift_option IndexError (last father);
   if decide (m = f) then
     match fuel with
     | O => diverge
     | S fuel' =>
         pick_father ← random_random;
         father ← rescan parents pick_father father;
         reroll_father fuel' parents mother father
     end
   else mret father).
Proof. by destruct fuel. Qed.






(** Invariant rule for [for_each]: [I done a s] relates the elements already
    visited, the accumulator and the state. *)
Lemma for_each_Ok_ind {A B} (I : list B → A → state → Prop)
  (body : B → A → M A) (xs : list B) a s a' s' :
  for_each xs body a s = Ok (a', s') →
  I [] a s →
  (∀ pre x rest a s a' s',
     xs = pre ++ x :: rest → I pre a s → body x a s = Ok (a', s') →
     I (pre ++ [x]) a' s') →
  I xs a' s'.
Proof.
  intros Hrun Hinit Hstep.
  assert (Hgen : ∀ pre suf a s,
    xs = pre ++ suf → I pre a s → for_each suf body a s = Ok (a', s') →
    I xs a' s').
  { intros pre suf. revert pre.
    induction suf as [|x suf IH]; intros pre a0 s0 Hxs Hpre Hsuf.
    - injection Hsuf as <- <-. by rewrite Hxs, app_nil_r.
    - simpl in Hsuf. apply bind_Ok in Hsuf as (a1 & s1 & Hbody & Hsuf).
      apply (IH (pre ++ [x]) a1 s1); [by rewrite <- app_assoc | | done].
      by eapply Hstep. }
  by apply (Hgen [] xs a s).
Qed.






(** *** The selection table *)

Lemma durations_of_Ok population s ds s' :
  durations_of population s = Ok (ds, s') →
  s' = s ∧
  Forall2 (λ r d, ∃ o, routes s !! r = Some o ∧ d = time_taken o)
    population ds.
Proof.
  unfold durations_of. intros Hrun.
  eapply (for_each_Ok_ind (λ pre ds s1, s1 = s ∧
    Forall2 (λ r d, ∃ o, routes s !! r = Some o ∧ d = time_taken o) pre ds));
    [exact Hrun | done |].
  clear. intros pre x rest ds s1 ds' s2 _ [-> Hall].
  intros (o & s3 & [Ho ->]%get_route_Ok & [= <- <-])%bind_Ok.
  split; [done |]. apply Forall2_app; [done |]. repeat constructor. eauto.
Qed.

Lemma zip_rows_columns rs fs cs ds :
  length fs = length rs → length cs = length rs → length ds = length rs →
  row_Route <$> zip_rows rs fs cs ds = rs ∧
  row_CDF <$> zip_rows rs fs cs ds = ds.
Proof.
  revert fs cs ds. induction rs as [|r rs IH]; intros [|f fs] [|c cs] [|d ds];
    try done.
  change (zip_rows (r :: rs) (f :: fs) (c :: cs) (d :: ds))
    with (mkRow r f c d :: zip_rows rs fs cs ds).
  intros [= Hf] [= Hc] [= Hd]. destruct (IH fs cs ds) as [H1 H2]; [done..|].
  rewrite !fmap_cons. simpl. by rewrite H1, H2.
Qed.

Lemma length_cumsum_from acc xs : length (cumsum_from acc xs) = length xs.
Proof. revert acc. induction xs; intros; simpl; auto. Qed.

Lemma length_cumsum xs : length (cumsum xs) = length xs.
Proof. destruct xs; simpl; [done |]. by rewrite length_cumsum_from. Qed.






Lemma SetParentsFitness_Ok sorted_routes s parents s' :
  SetParentsFitness sorted_routes s = Ok (parents, s') →
  s' = s ∧
  ∃ ds, Forall2 (λ r d, ∃ o, routes s !! r = Some o ∧ d = time_taken o)
          sorted_routes ds ∧
        parents =
          zip_rows sorted_routes ((λ d, 1 / d) <$> ds)
            (cumsum ((λ d, 1 / d) <$> ds))
            ((λ c, c / sum_Q ((λ d, 1 / d) <$> ds)) <$>
             cumsum ((λ d, 1 / d) <$> ds)).
Proof.
  unfold SetParentsFitness.
  intros (ds & s1 & [-> Hds]%durations_of_Ok & [= <- <-])%bind_Ok. eauto.
Qed.

Lemma SetParentsFitness_Route sorted_routes s parents s' :
  SetParentsFitness sorted_routes s = Ok (parents, s') →
  s' = s ∧ row_Route <$> parents = sorted_routes.
Proof.
  intros (-> & ds & Hds & ->)%SetParentsFitness_Ok. split; [done |].
  apply Forall2_length in Hds.
  apply zip_rows_columns;
    by rewrite ?length_fmap, ?length_cumsum, ?length_fmap.
Qed.


(** *** Lists: removal, insertion, swap *)

Lemma remove_first_perm x p p' : remove_first x p = Some p' → p ≡ₚ x :: p'.
Proof.
  revert p'. induction p as [|y p IH]; intros p'; simpl; [done |].
  destruct (decide (y = x)) as [->|Hne]; [by intros [= ->] |].
  destruct (remove_first x p) as [q|]; [|done]. intros [= <-].
  rewrite (IH q eq_refl). apply Permutation_swap.
Qed.

Lemma remove_first_head x h t p' :
  x ≠ h → remove_first x (h :: t) = Some p' → ∃ t', p' = h :: t'.
Proof.
  intros Hne. simpl. rewrite decide_False by done.
  destruct (remove_first x t) as [q|]; [|done]. intros [= <-]. eauto.
Qed.

Lemma remove_all_perm segment p c :
  remove_all segment p = Some c → p ≡ₚ segment ++ c.
Proof.
  revert p. induction segment as [|x segment IH]; intros p; simpl.
  - by intros [= ->].
  - destruct (remove_first x p) as [p'|] eqn:Hp; [|done]. simpl.
    intros Hc%IH. by rewrite (remove_first_perm _ _ _ Hp), Hc.
Qed.

Lemma remove_all_head segment h t c :
  h ∉ segment → remove_all segment (h :: t) = Some c → ∃ t', c = h :: t'.
Proof.
  revert t. induction segment as [|x segment IH]; intros t Hh;
    cbn [remove_all].
  - intros [= <-]. eauto.
  - destruct (remove_first x (h :: t)) as [p'|] eqn:Hp; [|done].
    cbn [mbind option_bind].
    apply remove_first_head in Hp as [t' ->]; [|set_solver].
    apply IH. set_solver.
Qed.

Lemma insert_at_perm {A} i (x : A) c : insert_at i x c ≡ₚ x :: c.
Proof.
  unfold insert_at. rewrite <- Permutation_middle. by rewrite take_drop.
Qed.

Lemma insert_all_perm father segment c c' :
  insert_all father segment c = Some c' → c' ≡ₚ segment ++ c.
Proof.
  revert c. induction segment as [|x segment IH]; intros c; simpl.
  - by intros [= ->].
  - destruct (index_of x father) as [i|]; [|done]. simpl.
    intros ->%IH. rewrite insert_at_perm. by rewrite Permutation_middle.
Qed.

Lemma index_of_head x h t i :
  x ≠ h → index_of x (h :: t) = Some i → ∃ j, i = S j.
Proof.
  intros Hne. simpl. rewrite decide_False by done.
  destruct (index_of x t) as [j|]; [|done]. intros [= <-]. eauto.
Qed.

Lemma insert_all_head h ft segment t c' :
  h ∉ segment → insert_all (h :: ft) segment (h :: t) = Some c' →
  ∃ t', c' = h :: t'.
Proof.
  revert t. induction segment as [|x segment IH]; intros t Hh.
  - intros [= <-]. eauto.
  - cbn [insert_all].
    destruct (index_of x (h :: ft)) as [i|] eqn:Hi; [|done].
    apply index_of_head in Hi as [j ->]; [|set_solver].
    cbn [mbind option_bind]. apply IH. set_solver.
Qed.

Lemma recombine_valid station_list first_station mother father lo hi child :
  NoDup station_list → (1 ≤ lo)%nat →
  valid_path station_list first_station mother →
  valid_path station_list first_station father →
  recombine mother father lo hi = Some child →
  valid_path station_list first_station child.
Proof.
  intros Hnd Hlo [Hm0 Hm] [Hf0 Hf]. unfold recombine.
  destruct (remove_all _ mother) as [c|] eqn:Hc; [|done].
  cbn [mbind option_bind]. intros Hchild.
  destruct father as [|h ft]; [done |]. injection Hf0 as ->.
  destruct mother as [|h t]; [done |]. injection Hm0 as ->.
  assert (Hseg : first_station ∉ take (hi - lo) (drop lo (first_station :: ft))).
  { rewrite <- Hf in Hnd. apply NoDup_cons in Hnd as [Hnotin _].
    intros (i & Hi & _)%elem_of_take. apply Hnotin.
    rewrite lookup_drop in Hi. destruct lo as [|lo]; [lia |].
    simpl in Hi. by eapply list_elem_of_lookup_2. }
  split.
  - apply remove_all_head in Hc as [t' ->]; [|done].
    by apply insert_all_head in Hchild as [t'' ->].
  - rewrite (insert_all_perm _ _ _ _ Hchild), <- Hm.
    symmetry. by apply remove_all_perm.
Qed.

Lemma insert_swap_head {A} (t : list A) j a b :
  t !! j = Some b → b :: <[j := a]> t ≡ₚ a :: t.
Proof.
  revert j. induction t as [|h t IH]; intros [|j] Hj; simplify_eq/=.
  - apply Permutation_swap.
  - rewrite Permutation_swap, (IH j Hj). apply Permutation_swap.
Qed.

Lemma insert_insert_perm {A} (p : list A) i j a b :
  p !! i = Some a → p !! j = Some b → <[j := a]> (<[i := b]> p) ≡ₚ p.
Proof.
  revert i j. induction p as [|h t IH]; intros [|i] [|j] Hi Hj;
    simplify_eq/=; try done.
  - by apply insert_swap_head.
  - by apply insert_swap_head.
  - by rewrite (IH i j).
Qed.

Lemma swap_items_perm p i j : swap_items p i j ≡ₚ p.
Proof.
  unfold swap_items. destruct (p !! j) as [x1|] eqn:Hj; [|done].
  destruct (p !! i) as [x0|] eqn:Hi; [|done].
  by apply insert_insert_perm.
Qed.

Lemma swap_items_head p i j :
  (1 ≤ i)%nat → (1 ≤ j)%nat → swap_items p i j !! 0%nat = p !! 0%nat.
Proof.
  intros Hi Hj. unfold swap_items. destruct (p !! j); [|done].
  destruct (p !! i); [|done]. rewrite !list_lookup_insert_ne by lia. done.
Qed.


Lemma swap_items_valid station_list first_station p i j :
  (1 ≤ i)%nat → (1 ≤ j)%nat →
  valid_path station_list first_station p →
  valid_path station_list first_station (swap_items p i j).
Proof.
  intros Hi Hj [H0 Hp]. split.
  - by rewrite swap_items_head.
  - by rewrite swap_items_perm.
Qed.

(** *** The store only grows *)

Lemma extends_refl s : extends s s.
Proof. by split. Qed.

Lemma extends_trans s1 s2 s3 : extends s1 s2 → extends s2 s3 → extends s1 s3.
Proof. intros [? ?] [? ?]. split; by etrans. Qed.

Lemma same_store_extends s s' : same_store s s' → extends s s'.
Proof. intros [Hl Hr]. split; by rewrite ?Hl, ?Hr. Qed.

Lemma same_store_refl s : same_store s s.
Proof. by split. Qed.

Lemma same_store_trans s1 s2 s3 :
  same_store s1 s2 → same_store s2 s3 → same_store s1 s3.
Proof. intros [? ?] [? ?]. split; congruence. Qed.

Lemma extends_grow s g L R :
  extends s (mkState g (lists s ++ L) (routes s ++ R)).
Proof. split; by apply prefix_app_r. Qed.

Lemma extends_lists s s' l p :
  extends s s' → lists s !! l = Some p → lists s' !! l = Some p.
Proof. intros [Hl _] Hp. by eapply prefix_lookup_Some. Qed.

Lemma extends_routes s s' r o :
  extends s s' → routes s !! r = Some o → routes s' !! r = Some o.
Proof. intros [_ Hr] Ho. by eapply prefix_lookup_Some. Qed.

Lemma extends_path_of s s' r p :
  extends s s' → path_of s r = Some p → path_of s' r = Some p.
Proof.
  intros Hext. unfold path_of.
  destruct (routes s !! r) as [o|] eqn:Ho; [|done]. simpl.
  intros Hp. rewrite (extends_routes _ _ _ _ Hext Ho). simpl.
  by eapply extends_lists.
Qed.

Lemma extends_valid_route station_list first_station s s' r :
  extends s s' → valid_route station_list first_station s r →
  valid_route station_list first_station s' r.
Proof. intros Hext (p & Hp & Hv). exists p. eauto using extends_path_of. Qed.

Lemma extends_length s s' :
  extends s s' →
  (length (lists s) ≤ length (lists s'))%nat ∧
  (length (routes s) ≤ length (routes s'))%nat.
Proof. intros [? ?]. split; by apply prefix_length. Qed.

(** *** Random draws *)

Lemma random_random_Ok s u s' :
  random_random s = Ok (u, s') → 0 <= u ∧ u < 1 ∧ same_store s s'.
Proof.
  destruct (random_random_run s) as (u' & g & -> & ? & ?).
  by intros [= <- <-].
Qed.

Lemma random_randint_Ok a b s n s' :
  random_randint a b s = Ok (n, s') → (a ≤ n ≤ b)%Z ∧ same_store s s'.
Proof.
  unfold random_randint. case_decide as Hab; [|done].
  pose proof (rng_randint_range a b (gen s) Hab) as Hr.
  destruct (rng_randint a b (gen s)) as [n' g]. by intros [= <- <-].
Qed.

Lemma reroll_gene_eq fuel hi gene0 gene1 :
  reroll_gene fuel hi gene0 gene1 =
  if decide (gene0 = gene1) then
    match fuel with
    | O => diverge
    | S fuel' =>
        gene1 ← random_randint 1 hi; reroll_gene fuel' hi gene0 gene1
    end
  else mret gene1.
Proof. by destruct fuel. Qed.

Lemma reroll_gene_Ok fuel hi gene0 gene1 s g s' :
  reroll_gene fuel hi gene0 gene1 s = Ok (g, s') →
  ((1 ≤ gene1 ≤ hi)%Z → (1 ≤ g ≤ hi)%Z) ∧ gene0 ≠ g ∧ same_store s s'.
Proof.
  revert gene1 s. induction fuel as [|fuel IH]; intros gene1 s;
    rewrite reroll_gene_eq; case_decide as Heq;
    try (intros [= <- <-]; by auto using same_store_refl).
  intros (g1 & s1 & [Hg1 Hs1]%random_randint_Ok & Hrun)%bind_Ok.
  apply IH in Hrun as (Hr & ? & ?).
  split_and!; [auto | done | by eapply same_store_trans].
Qed.

Lemma draw_genes_Ok fuel n s gene0 gene1 s' :
  draw_genes fuel n s = Ok ((gene0, gene1), s') →
  (1 ≤ gene0 ≤ Z.of_nat n - 1)%Z ∧ (1 ≤ gene1 ≤ Z.of_nat n - 1)%Z ∧
  gene0 ≠ gene1 ∧ same_store s s'.
Proof.
  unfold draw_genes.
  intros (g0 & s1 & [Hg0 Hs1]%random_randint_Ok & Hrun)%bind_Ok.
  apply bind_Ok in Hrun as (g1 & s2 & [Hg1 Hs2]%random_randint_Ok & Hrun).
  apply bind_Ok in Hrun as (g & s3 & (Hr & ? & Hs3)%reroll_gene_Ok & Heq).
  injection Heq as -> -> ->.
  split_and!; [lia.. | done | eauto using same_store_trans].
Qed.

(** *** Sorting *)

Lemma insert_by_key_perm x l : insert_by_key x l ≡ₚ x :: l.
Proof.
  induction l as [|y l IH]; simpl; [done |].
  destruct (Qle_bool x.1 y.1); [done |].
  rewrite IH. apply Permutation_swap.
Qed.

Lemma sort_by_key_perm l : sort_by_key l ≡ₚ l.
Proof.
  induction l as [|x l IH]; simpl; [done |].
  by rewrite insert_by_key_perm, IH.
Qed.

Lemma SortRoutes_Ok population s sorted s' :
  SortRoutes population s = Ok (sorted, s') →
  s' = s ∧ sorted ≡ₚ population.
Proof.
  unfold SortRoutes.
  intros (keys & s1 & [-> Hkeys]%durations_of_Ok & [= <- <-])%bind_Ok.
  split; [done |]. rewrite sort_by_key_perm.
  apply Forall2_length in Hkeys. rewrite snd_zip by lia. done.
Qed.

(** *** Parent selection hands out routes of the table *)

Lemma Forall_removelast {A} (P : A → Prop) l :
  Forall P l → Forall P (removelast l).
Proof.
  induction 1 as [|x l Hx Hl IH]; [done |]. simpl.
  destruct l; [done |]. by constructor.
Qed.

Lemma set_last_Forall (P : nat → Prop) father x father' :
  set_last father x = Some father' → Forall P father → P x →
  Forall P father'.
Proof.
  unfold set_last. destruct father as [|y l]; [done |]. intros [= <-] Hf Hx.
  apply Forall_app. split; [|by constructor].
  by apply (Forall_removelast P (y :: l)).
Qed.

Lemma rescan_Ok (P : nat → Prop) rest u father s father' s' :
  rescan rest u father s = Ok (father', s') →
  s' = s ∧ (Forall P (row_Route <$> rest) → Forall P father →
            Forall P father').
Proof.
  induction rest as [|r rest IH]; simpl.
  - by intros [= <- <-].
  - destruct (Qle_bool u (row_CDF r)).
    + intros [Hset ->]%lift_option_Ok. split; [done |].
      intros [Hr _]%Forall_cons Hf. by eapply set_last_Forall.
    + intros [-> Hall]%IH. split; [done |].
      intros [_ Hrest]%Forall_cons. auto.
Qed.

Lemma reroll_father_Ok (P : nat → Prop) fuel parents mother father s
  father' s' :
  reroll_father fuel parents mother father s = Ok (father', s') →
  same_store s s' ∧ (Forall P (row_Route <$> parents) → Forall P father →
                     Forall P father').
Proof.
  revert father s. induction fuel as [|fuel IH]; intros father s;
    rewrite reroll_father_eq;
    intros (m & s1 & [_ ->]%lift_option_Ok & Hrun)%bind_Ok;
    apply bind_Ok in Hrun as (f & s1 & [_ ->]%lift_option_Ok & Hrun);
    case_decide; try (injection Hrun as <- <-; by auto using same_store_refl);
    [done |].
  apply bind_Ok in Hrun as (u & s1 & (_ & _ & Hs1)%random_random_Ok & Hrun).
  apply bind_Ok in Hrun as (f1 & s2 & [-> Hf1]%(rescan_Ok P) & Hrun).
  apply IH in Hrun as [Hs2 Hall].
  split; [by eapply same_store_trans | auto].
Qed.

Lemma scan_parents_Ok (P : nat → Prop) fuel parents rest pick_mother
  pick_father mother_selected father_selected mother father s
  mother' father' s' :
  scan_parents fuel parents rest pick_mother pick_father
    mother_selected father_selected mother father s
    = Ok ((mother', father'), s') →
  same_store s s' ∧
  (Forall P (row_Route <$> parents) → Forall P (row_Route <$> rest) →
   Forall P mother → Forall P father →
   Forall P mother' ∧ Forall P father').
Proof.
  revert mother_selected father_selected mother father.
  induction rest as [|r rest IH]; intros msel fsel mother father.
  { intros [= <- <- <-]. auto using same_store_refl. }
  cbn [scan_parents].
  set (mother1 := if Qle_bool pick_mother (row_CDF r) && negb msel
                  then (mother ++ [row_Route r], true) else (mother, msel)).
  set (father1 := if Qle_bool pick_father (row_CDF r) && negb fsel
                  then (father ++ [row_Route r], true) else (father, fsel)).
  assert (Hm1 : Forall P (row_Route <$> r :: rest) → Forall P mother →
                Forall P mother1.1).
  { intros [Hr _]%Forall_cons Hm. unfold mother1.
    destruct (Qle_bool pick_mother (row_CDF r) && negb msel); simpl; [|done].
    apply Forall_app. split; [done | by constructor]. }
  assert (Hf1 : Forall P (row_Route <$> r :: rest) → Forall P father →
                Forall P father1.1).
  { intros [Hr _]%Forall_cons Hf. unfold father1.
    destruct (Qle_bool pick_father (row_CDF r) && negb fsel); simpl; [|done].
    apply Forall_app. split; [done | by constructor]. }
  destruct mother1 as [m1 msel1], father1 as [f1 fsel1]. simpl in *.
  destruct (msel1 && fsel1).
  - intros (f2 & s1 & [Hs Hall]%(reroll_father_Ok P) & [= <- <- <-])%bind_Ok.
    split; [done |]. auto.
  - intros [Hs Hall]%IH. split; [done |].
    intros Hp Hrest Hm Hf. apply Hall; auto.
    by apply Forall_cons in Hrest as [_ ?].
Qed.

Lemma select_pair_Ok (P : nat → Prop) fuel parents mother father s
  mother' father' s' :
  select_pair fuel parents mother father s = Ok ((mother', father'), s') →
  same_store s s' ∧
  (Forall P (row_Route <$> parents) → Forall P mother → Forall P father →
   Forall P mother' ∧ Forall P father').
Proof.
  unfold select_pair.
  intros (u1 & s1 & (_ & _ & Hs1)%random_random_Ok & Hrun)%bind_Ok.
  apply bind_Ok in Hrun as (u2 & s2 & (_ & _ & Hs2)%random_random_Ok & Hrun).
  apply (scan_parents_Ok P) in Hrun as [Hs3 Hall].
  split; [eauto using same_store_trans | auto].
Qed.

Lemma SelectParents_Ok (P : nat → Prop) fuel parents elite_size s
  mother father s' :
  SelectParents fuel parents elite_size s = Ok ((mother, father), s') →
  same_store s s' ∧
  (Forall P (row_Route <$> parents) → Forall P mother ∧ Forall P father).
Proof.
  unfold SelectParents. intros Hrun.
  eapply (for_each_Ok_ind (λ _ (mf : list nat * list nat) s1,
    same_store s s1 ∧
    (Forall P (row_Route <$> parents) → Forall P mf.1 ∧ Forall P mf.2))
    _ _ _ _ (mother, father)); [exact Hrun | | ].
  { split; [apply same_store_refl | by split]. }
  clear. intros _ _ _ [m f] s1 [m' f'] s2 _ [Hs Hall].
  intros [Hs' Hall']%(select_pair_Ok P). simpl in *.
  split; [by eapply same_store_trans |].
  intros Hp. destruct (Hall Hp). auto.
Qed.

Lemma seq_split_index n (pre : list nat) x rest :
  seq 0 n = pre ++ x :: rest → x = length pre.
Proof.
  intros Heq. apply (f_equal (.!! length pre)) in Heq.
  rewrite list_lookup_middle in Heq by done.
  apply lookup_seq in Heq as [? _]. lia.
Qed.

Lemma elites_Ok parents n s children s' :
  for_each (seq 0 n)
    (λ elite children,
       r ← lift_option IndexError (parents !! elite);
       mret (children ++ [row_Route r])) [] s = Ok (children, s') →
  s' = s ∧ children = take n (row_Route <$> parents) ∧
  (n ≤ length parents)%nat.
Proof.
  intros Hrun.
  cut (s' = s ∧
       children = take (length (seq 0 n)) (row_Route <$> parents) ∧
       (length (seq 0 n) ≤ length parents)%nat).
  { by rewrite length_seq. }
  eapply (for_each_Ok_ind (λ pre children s1, s1 = s ∧
    children = take (length pre) (row_Route <$> parents) ∧
    (length pre ≤ length parents)%nat));
    [exact Hrun | simpl; split_and!; [done | done | lia] |].
  clear. intros pre x rest children s1 children' s2 Hseq (-> & -> & Hlen).
  apply seq_split_index in Hseq as ->.
  intros (r & s3 & [Hr ->]%lift_option_Ok & [= <- <-])%bind_Ok.
  rewrite length_app. simpl. rewrite Nat.add_1_r.
  apply lookup_lt_Some in Hr as Hlt. split_and!; [done | | lia].
  symmetry. apply take_S_r. by rewrite list_lookup_fmap, Hr.
Qed.

Lemma insert_at_delete {A} (l : list A) i x y :
  l !! i = Some y → insert_at i x (delete i l) = <[i := x]> l.
Proof.
  intros Hi. apply lookup_lt_Some in Hi as Hlt. unfold insert_at.
  rewrite insert_take_drop by done. rewrite delete_take_drop.
  assert (Hlen : length (take i l) = i) by (rewrite length_take; lia).
  rewrite (take_app_length' (take i l)) by done.
  by rewrite (drop_app_length' (take i l)).
Qed.

(** *** Splitting a loop *)

Lemma for_each_app {A B} (xs ys : list B) (body : B → A → M A) a s :
  for_each (xs ++ ys) body a s =
  (a' ← for_each xs body a; for_each ys body a') s.
Proof.
  revert a s. induction xs as [|x xs IH]; intros a s; [done |].
  simpl. rewrite bind_assoc. apply bind_ext. intros a' s1 _. apply IH.
Qed.




Section Table.

Variable time_to : Station → gmap Station Q.

(** *** [Route.__init__] *)

Lemma leg_Some p i d :
  leg time_to p i = Some d ↔
  ∃ a b, p !! i = Some a ∧ p !! S i = Some b ∧ time_to a !! b = Some d.
Proof.
  unfold leg. destruct (p !! i) as [a|]; simpl; [|naive_solver].
  destruct (p !! S i) as [b|]; simpl; naive_solver.
Qed.

Lemma duration_loop_Ok p todo acc :
  (∀ i, i ∈ todo → is_Some (leg time_to p i)) →
  ∃ d, duration_loop time_to p todo acc = Ok d ∧
       d == acc + foldr Qplus 0 ((λ i, default 0 (leg time_to p i)) <$> todo).
Proof.
  revert acc. induction todo as [|i todo IH]; intros acc Hall.
  - exists acc. split; [done |]. simpl. ring.
  - destruct (Hall i) as [d Hd]; [set_solver |].
    destruct (IH (acc + d)) as (d' & Hrun & Hd').
    { intros j Hj. apply Hall. set_solver. }
    exists d'. rewrite fmap_cons, Hd. simpl.
    apply leg_Some in Hd as (a & b & Ha & Hb & Hd).
    rewrite Nat.add_1_r, Ha, Hb, Hd. split; [done |].
    rewrite Hd'. ring.
Qed.

Lemma duration_loop_Ok_inv p todo acc d :
  duration_loop time_to p todo acc = Ok d →
  ∀ i, i ∈ todo → is_Some (leg time_to p i).
Proof.
  revert acc. induction todo as [|i todo IH]; intros acc; simpl.
  { intros _ j Hj. by apply elem_of_nil in Hj. }
  rewrite Nat.add_1_r. unfold leg at 1.
  destruct (p !! i) as [a|] eqn:Ha; [|done].
  destruct (p !! S i) as [b|] eqn:Hb; [|done].
  destruct (time_to a !! b) as [d'|] eqn:Hd; [|done].
  intros Hrun j [->|Hj]%elem_of_cons; [|by eapply IH].
  exists d'. apply leg_Some. eauto.
Qed.

Lemma duration_loop_Raise p todo acc e :
  (∀ i, i ∈ todo → S i < length p)%nat →
  duration_loop time_to p todo acc = Raise e →
  ∃ i a b, i ∈ todo ∧ p !! i = Some a ∧ p !! S i = Some b ∧
           time_to a !! b = None ∧ e = KeyError b.
Proof.
  revert acc. induction todo as [|i todo IH]; intros acc Hlt; simpl; [done |].
  rewrite Nat.add_1_r.
  destruct (lookup_lt_is_Some_2 p i) as [a Ha]; [specialize (Hlt i); set_solver by lia |].
  destruct (lookup_lt_is_Some_2 p (S i)) as [b Hb]; [apply Hlt; set_solver |].
  rewrite Ha, Hb. destruct (time_to a !! b) as [d|] eqn:Hd.
  - intros Hr. apply IH in Hr as (j & a' & b' & ? & ?); [|set_solver].
    exists j, a', b'. set_solver.
  - intros [= <-]. exists i, a, b. set_solver.
Qed.

Lemma duration_loop_not_Diverge p todo acc :
  duration_loop time_to p todo acc ≠ Diverge.
Proof.
  revert acc. induction todo as [|i todo IH]; intros acc; simpl; [done |].
  repeat case_match; first [done | apply IH].
Qed.

Lemma range_legs (p : list Station) i : i ∈ seq 0 (length p - 1) → (S i < length p)%nat.
Proof. rewrite elem_of_seq. lia. Qed.

Lemma Route_init_run l s p :
  lists s !! l = Some p →
  Route__init__ time_to l s =
  match duration_loop time_to p (seq 0 (length p - 1)) 0 with
  | Ok d => Ok (length (routes s),
                mkState (gen s) (lists s) (routes s ++ [mkRoute l d]))
  | Raise e => Raise e
  | Diverge => Diverge
  end.
Proof.
  intros Hl. unfold Route__init__, mbind, M_bind, get_list. rewrite Hl.
  destruct (duration_loop _ _ _ _); done.
Qed.

(** C8. Building a route fails with the lookup error ([KeyError], the
    specification's MissingDistanceError) exactly when some consecutive
    pair of the path has no entry in the duration mapping of its first
    location; no other error can occur, and when every consecutive pair is
    mapped the construction succeeds. *)
Theorem Route_init_missing_distance (s : state) (l : nat)
  (p : list Station) :
  lists s !! l = Some p →
  ((∃ k, Route__init__ time_to l s = Raise (KeyError k)) ↔
   (∃ i a b, p !! i = Some a ∧ p !! S i = Some b ∧ time_to a !! b = None))
  ∧ (∀ e, Route__init__ time_to l s = Raise e → ∃ k, e = KeyError k)
  ∧ Route__init__ time_to l s ≠ Diverge
  ∧ ((∀ i a b, p !! i = Some a → p !! S i = Some b →
               is_Some (time_to a !! b)) →
     ∃ r s', Route__init__ time_to l s = Ok (r, s')).
Proof.
  intros Hl. rewrite (Route_init_run l s p Hl).
  pose proof (duration_loop_not_Diverge p (seq 0 (length p - 1)) 0) as Hnd.
  destruct (duration_loop _ _ _ _) as [d|e|] eqn:Hrun; [| |done].
  - split_and!; [|done|done|eauto]. split; [by intros [? ?] |].
    intros (i & a & b & Ha & Hb & Hnone). exfalso.
    apply lookup_lt_Some in Hb as Hlt.
    destruct (duration_loop_Ok_inv _ _ _ _ Hrun i) as [d' Hd'].
    { apply elem_of_seq. lia. }
    apply leg_Some in Hd' as (? & ? & ? & ? & ?). congruence.
  - apply duration_loop_Raise in Hrun
      as (i & a & b & _ & Ha & Hb & Hnone & ->); [|apply range_legs].
    split_and!; [split; eauto 10 | intros ? [= <-]; eauto | done |].
    intros Hall. destruct (Hall i a b Ha Hb). congruence.
Qed.

Lemma duration_loop_sum p d :
  duration_loop time_to p (seq 0 (length p - 1)) 0 = Ok d →
  (∀ i, (S i < length p)%nat → is_Some (leg time_to p i)) ∧
  d == sum_of_legs time_to p.
Proof.
  intros Hrun. split.
  - intros i Hi. eapply duration_loop_Ok_inv; [done |].
    apply elem_of_seq. lia.
  - destruct (duration_loop_Ok p (seq 0 (length p - 1)) 0)
      as (d' & Hd' & Heq).
    { by eapply duration_loop_Ok_inv. }
    rewrite Hrun in Hd'. injection Hd' as <-.
    rewrite Heq. unfold sum_of_legs. ring.
Qed.

(** *** Building routes *)

Lemma built_mono s0 s s' r :
  extends s s' → built time_to s0 s r → built time_to s0 s' r.
Proof.
  intros Hext (Hr & o & p & Ho & Hl & Hp & Hd). split; [done |].
  exists o, p. split_and!; eauto using extends_routes, extends_lists.
Qed.

Lemma built_weaken s00 s0 s r :
  extends s00 s0 → built time_to s0 s r → built time_to s00 s r.
Proof.
  intros [Hl Hr]%extends_length (Hr' & o & p & Ho & Hl' & Hp & Hd).
  split; [lia |]. exists o, p. split_and!; [done | lia | done | done].
Qed.

Lemma Route_init_Ok l s r s' :
  Route__init__ time_to l s = Ok (r, s') →
  ∃ p d, lists s !! l = Some p ∧
         duration_loop time_to p (seq 0 (length p - 1)) 0 = Ok d ∧
         r = length (routes s) ∧
         s' = mkState (gen s) (lists s) (routes s ++ [mkRoute l d]).
Proof.
  unfold Route__init__.
  intros (p & s1 & [Hp ->]%get_list_Ok & Hrun)%bind_Ok.
  apply bind_Ok in Hrun as (d & s1 & [Hd ->]%lift_outcome_Ok & Hrun).
  apply new_route_Ok in Hrun as [-> ->]. eauto 10.
Qed.

Lemma Route_init_built l s r s' p :
  lists s !! l = Some p → (length (lists s) ≤ S l)%nat →
  Route__init__ time_to l s = Ok (r, s') →
  r = length (routes s) ∧ path_of s' r = Some p ∧
  lists s' = lists s ∧ (∃ o, routes s' = routes s ++ [o]) ∧
  ∀ s0, extends s0 s → (length (lists s0) ≤ l)%nat → built time_to s0 s' r.
Proof.
  intros Hp Hl (p' & d & Hp' & Hd & -> & ->)%Route_init_Ok.
  simplify_eq. unfold path_of. simpl. rewrite lookup_snoc. simpl.
  split_and!; [done | done | done | eauto |].
  intros s0 [_ Hr]%extends_length Hl0. split; [done |].
  exists (mkRoute l d), p. simpl. by rewrite lookup_snoc.
Qed.

Lemma CreateRoute_Ok station_list first_station s r s' :
  CreateRoute time_to station_list first_station s = Ok (r, s') →
  ∃ p1 q g o,
    remove_first first_station station_list = Some p1 ∧ q ≡ₚ p1 ∧
    r = length (routes s) ∧
    s' = mkState g (lists s ++ [p1; first_station :: q]) (routes s ++ [o]) ∧
    path o = S (length (lists s)) ∧
    duration_loop time_to (first_station :: q)
      (seq 0 (length (first_station :: q) - 1)) 0 = Ok (time_taken o).
Proof.
  unfold CreateRoute.
  intros (l0 & s1 & [-> ->]%new_list_Ok & Hrun)%bind_Ok.
  apply bind_Ok in Hrun as ([] & s2 & Hrem & Hrun).
  apply list_remove_Ok in Hrem as (p & p1 & Hp & Hp1 & ->).
  simpl in Hp. rewrite lookup_snoc in Hp. injection Hp as <-.
  simpl in Hrun. rewrite insert_snoc in Hrun.
  apply bind_Ok in Hrun as (n & s3 & Hlen & Hrun).
  apply list_len_Ok in Hlen as (p & Hp & -> & ->).
  simpl in Hp. rewrite lookup_snoc in Hp. injection Hp as <-.
  apply bind_Ok in Hrun as (l1 & s4 & Hsample & Hrun).
  unfold random_sample in Hsample.
  apply bind_Ok in Hsample as (p & s3 & [Hp ->]%get_list_Ok & Hsample).
  simpl in Hp. rewrite lookup_snoc in Hp. injection Hp as <-.
  rewrite decide_True in Hsample by done.
  apply bind_Ok in Hsample as (q & s3 & Hq & [-> ->]%new_list_Ok).
  simpl in Hq. pose proof (rng_sample_perm p1 (gen s)) as Hperm.
  destruct (rng_sample p1 (length p1) (gen s)) as [q' g].
  injection Hq as <- <-. simpl in *.
  apply bind_Ok in Hrun as ([] & s5 & Hins & Hrun).
  apply list_insert_Ok in Hins as (q2 & Hq2 & ->). simpl in *.
  rewrite lookup_snoc in Hq2. injection Hq2 as <-.
  rewrite insert_snoc in Hrun.
  apply Route_init_Ok in Hrun as (p' & d & Hp' & Hd & -> & ->).
  simpl in *. rewrite lookup_snoc in Hp'. injection Hp' as <-.
  exists p1, q', g, (mkRoute (length (lists s ++ [p1])) d).
  rewrite <- app_assoc. simpl. rewrite length_app, Nat.add_1_r.
  split_and!; done.
Qed.

Lemma CreateRoute_valid station_list first_station s r s' :
  CreateRoute time_to station_list first_station s = Ok (r, s') →
  extends s s' ∧ built time_to s s' r ∧
  valid_route station_list first_station s' r.
Proof.
  intros (p1 & q & g & o & Hrem & Hq & -> & -> & Hpath & Hd)%CreateRoute_Ok.
  assert (Hlist : (lists s ++ [p1; first_station :: q]) !! path o
                  = Some (first_station :: q)).
  { rewrite Hpath, (lookup_app_r _ _ (S (length (lists s)))) by lia.
    by replace (S (length (lists s)) - length (lists s))%nat with 1%nat
      by lia. }
  split_and!.
  - apply extends_grow.
  - split; [done |]. exists o, (first_station :: q). simpl.
    rewrite lookup_snoc. split_and!; [done | lia | done | done].
  - exists (first_station :: q). unfold path_of. simpl.
    rewrite lookup_snoc. simpl. split; [done |]. split; [done |].
    by rewrite Hq, (remove_first_perm _ _ _ Hrem).
Qed.

Lemma CreateInitialPopulation_Ok pop_size station_list first_station s
  population s' :
  CreateInitialPopulation time_to pop_size station_list first_station s
    = Ok (population, s') →
  extends s s' ∧
  Forall (valid_route station_list first_station s') population.
Proof.
  unfold CreateInitialPopulation. intros Hrun.
  eapply (for_each_Ok_ind (λ _ population s1, extends s s1 ∧
    Forall (valid_route station_list first_station s1) population));
    [exact Hrun | by split; [apply extends_refl |] |].
  clear. intros _ _ _ population s1 population' s2 _ [Hext Hall].
  intros (r & s3 & (Hext' & _ & Hv)%CreateRoute_valid & [= <- <-])%bind_Ok.
  split; [by eapply extends_trans |].
  apply Forall_app. split; [|by constructor].
  eapply Forall_impl; [done |]. intros r'. by apply extends_valid_route.
Qed.

(** *** Crossover *)

Lemma splice_Ok_copy mother_path father_path lo hi s c s' :
  splice mother_path father_path lo hi s = Ok (c, s') →
  is_Some (lists s !! mother_path).
Proof.
  unfold splice. intros (c' & s1 & (p & Hp & _)%list_copy_Ok & _)%bind_Ok.
  eauto.
Qed.

Lemma mate_Ok fuel mother father mating s r s' :
  mate time_to fuel mother father mating s = Ok (r, s') →
  ∃ m f pm pf lo hi child,
    mother !! mating = Some m ∧ father !! mating = Some f ∧
    path_of s m = Some pm ∧ path_of s f = Some pf ∧
    (1 ≤ lo < hi)%nat ∧ (hi < length pf)%nat ∧
    recombine pm pf lo hi = Some child ∧
    path_of s' r = Some child ∧ extends s s' ∧ built time_to s s' r.
Proof.
  unfold mate.
  intros (f & s1 & [Hf ->]%lift_option_Ok & Hrun)%bind_Ok.
  apply bind_Ok in Hrun as (fo & s1 & [Hfo ->]%get_route_Ok & Hrun).
  apply bind_Ok in Hrun as (n & s1 & (pf & Hpf & -> & ->)%list_len_Ok & Hrun).
  apply bind_Ok in Hrun
    as ([g0 g1] & s1 & (Hg0 & Hg1 & Hne & Hl & Hr)%draw_genes_Ok & Hrun).
  apply bind_Ok in Hrun as (m & s2 & [Hm ->]%lift_option_Ok & Hrun).
  apply bind_Ok in Hrun as (mo & s2 & [Hmo ->]%get_route_Ok & Hrun).
  apply bind_Ok in Hrun as (c & s2 & Hsplice & Hrun).
  destruct (splice_Ok_copy _ _ _ _ _ _ _ Hsplice) as [pm Hpm].
  rewrite Hl in Hpm. rewrite Hr in Hmo.
  rewrite (splice_run _ _ _ _ _ pm pf) in Hsplice by by rewrite Hl.
  destruct (recombine pm pf _ _) as [child|] eqn:Hchild; [|done].
  injection Hsplice as <- <-. rewrite Hl, Hr in Hrun.
  apply (Route_init_built _ _ _ _ child) in Hrun
    as (-> & Hpath & Hl' & [o Hr'] & Hbuilt);
    [|apply lookup_snoc | simpl; rewrite length_app; simpl; lia].
  simpl in *.
  assert (Hext : extends s s').
  { split; [rewrite Hl'; by apply prefix_app_r
           | rewrite Hr'; by apply prefix_app_r]. }
  exists m, f, pm, pf, (Z.to_nat (Z.min g0 g1)), (Z.to_nat (Z.max g0 g1)),
    child.
  unfold path_of at 1 2. rewrite Hmo, Hfo. simpl.
  split_and!; try done; try lia.
  split; [done |].
  destruct (Hbuilt (mkState (gen s1) (lists s) (routes s)))
    as (_ & o' & p' & ? & ? & ? & ?); [| simpl; lia |].
  { split; simpl; [by apply prefix_app_r | done]. }
  exists o', p'. simpl in *. done.
Qed.

Lemma crossed_mono candidates s0 s s' r :
  extends s s' → crossed time_to candidates s0 s r →
  crossed time_to candidates s0 s' r.
Proof.
  intros Hext (Hb & m & f & pm & pf & lo & hi & child & Hc).
  split; [by eapply built_mono |].
  exists m, f, pm, pf, lo, hi, child.
  destruct Hc as (? & ? & ? & ? & ? & ? & ? & ?).
  split_and!; first [done | lia | by eapply extends_path_of].
Qed.

Lemma Procreate_Ok fuel parents elite_size s children s' :
  Procreate time_to fuel parents elite_size s = Ok (children, s') →
  ∃ bred,
    children = take (Z.to_nat elite_size) (row_Route <$> parents) ++ bred ∧
    (Z.to_nat elite_size ≤ length parents)%nat ∧
    extends s s' ∧
    Forall (crossed time_to (row_Route <$> parents) s s') bred.
Proof.
  unfold Procreate, range.
  intros (elites & s1 & (-> & -> & Hlen)%elites_Ok & Hrun)%bind_Ok.
  apply bind_Ok in Hrun as ([mother father] & s2 & Hsel & Hrun).
  apply (SelectParents_Ok (.∈ row_Route <$> parents)) in Hsel as [Hs Hin].
  destruct Hin as [Hmother Hfather]; [by apply Forall_forall |].
  pose proof (same_store_extends _ _ Hs) as Hext.
  cut (∃ bred,
    children = take (Z.to_nat elite_size) (row_Route <$> parents) ++ bred ∧
    extends s2 s' ∧
    Forall (crossed time_to (row_Route <$> parents) s2 s') bred).
  { intros (bred & -> & Hext' & Hall). exists bred.
    split_and!; [done | done | by eapply extends_trans |].
    eapply Forall_impl; [done |]. intros r [Hb Hc]. split; [|done].
    by eapply built_weaken. }
  eapply (for_each_Ok_ind (λ _ children s3, ∃ bred,
    children = take (Z.to_nat elite_size) (row_Route <$> parents) ++ bred ∧
    extends s2 s3 ∧
    Forall (crossed time_to (row_Route <$> parents) s2 s3) bred));
    [exact Hrun | |].
  { exists []. by rewrite app_nil_r; split_and!; [| apply extends_refl |]. }
  clear Hrun. intros _ mating _ cs s3 cs' s4 _ (bred & -> & Hext3 & Hall).
  intros (r & s5 & Hmate & [= <- <-])%bind_Ok.
  apply mate_Ok in Hmate
    as (m & f & pm & pf & lo & hi & child & Hm & Hf & Hpm & Hpf & Hlo & Hhi
        & Hre & Hpath & Hext4 & Hb).
  exists (bred ++ [r]). rewrite app_assoc.
  split_and!; [done | by eapply extends_trans |].
  apply Forall_app. split.
  - eapply Forall_impl; [done |]. intros r'. by apply crossed_mono.
  - constructor; [|done]. split; [by eapply built_weaken |].
    exists m, f, pm, pf, lo, hi, child.
    split_and!; try first [done | lia | by eapply extends_path_of].
    + by eapply (Forall_lookup_1 _ _ _ _ Hmother).
    + by eapply (Forall_lookup_1 _ _ _ _ Hfather).
Qed.

(** *** Mutation *)

Lemma mutate_one_Ok fuel mutation_rate child children s children' s' :
  mutate_one time_to fuel mutation_rate child children s
    = Ok (children', s') →
  (children' = children ∧ same_store s s' ∧
   ∃ u, u < 1 ∧ Qle_bool u mutation_rate = false)
  ∨ (∃ r, children !! child = Some r ∧
          children' = <[child := length (routes s)]> children ∧
          extends s s' ∧ mutated time_to s s' r (length (routes s))).
Proof.
  unfold mutate_one.
  intros (u & [g1 L1 R1] & (_ & Hu & Hl & Hr)%random_random_Ok & Hrun)%bind_Ok.
  simpl in Hl, Hr. subst L1 R1.
  destruct (Qle_bool u mutation_rate) eqn:Hroll.
  2:{ injection Hrun as <- <-. left. split_and!; [done | by split | eauto]. }
  right.
  apply bind_Ok in Hrun as (r & s1 & [Hchild ->]%lift_option_Ok & Hrun).
  apply bind_Ok in Hrun as (o & s1 & [Ho ->]%get_route_Ok & Hrun).
  apply bind_Ok in Hrun as (c & s1 & (p & Hp & -> & ->)%list_copy_Ok & Hrun).
  simpl in *.
  apply bind_Ok in Hrun as (n & s1 & (p' & Hp' & -> & ->)%list_len_Ok & Hrun).
  simpl in Hp'. rewrite lookup_snoc in Hp'. injection Hp' as <-.
  apply bind_Ok in Hrun
    as ([g0 gj] & [g2 L2 R2] & (Hg0 & Hgj & Hne & Hl & Hr)%draw_genes_Ok
        & Hrun).
  simpl in Hl, Hr. subst L2 R2.
  apply bind_Ok in Hrun as (x1 & s1 & Hget1 & Hrun).
  apply list_getitem_Ok in Hget1 as (p' & Hp' & Hx1 & ->).
  simpl in Hp'. rewrite lookup_snoc in Hp'. injection Hp' as <-.
  apply bind_Ok in Hrun as (x0 & s1 & Hget0 & Hrun).
  apply list_getitem_Ok in Hget0 as (p' & Hp' & Hx0 & ->).
  simpl in Hp'. rewrite lookup_snoc in Hp'. injection Hp' as <-.
  apply bind_Ok in Hrun as ([] & s1 & Hset0 & Hrun).
  apply list_setitem_Ok in Hset0 as (p' & Hp' & Hlt0 & ->).
  simpl in Hp'. rewrite lookup_snoc in Hp'. injection Hp' as <-.
  simpl in Hrun. rewrite insert_snoc in Hrun.
  apply bind_Ok in Hrun as ([] & s1 & Hset1 & Hrun).
  apply list_setitem_Ok in Hset1 as (p' & Hp' & Hlt1 & ->).
  simpl in Hp'. rewrite lookup_snoc in Hp'. injection Hp' as <-.
  simpl in Hrun. rewrite insert_snoc in Hrun.
  rewrite length_insert in Hlt1.
  apply bind_Ok in Hrun as (route & s1 & Hinit & [= <- <-]).
  assert (Hswap : <[Z.to_nat gj := x0]> (<[Z.to_nat g0 := x1]> p)
                  = swap_items p (Z.to_nat g0) (Z.to_nat gj)).
  { unfold swap_items. by rewrite Hx1, Hx0. }
  rewrite Hswap in Hinit.
  apply (Route_init_built _ _ _ _
           (swap_items p (Z.to_nat g0) (Z.to_nat gj))) in Hinit
    as (-> & Hpath & Hl' & [o' Hr'] & Hbuilt);
    [|apply lookup_snoc | simpl; rewrite length_app; simpl; lia].
  simpl in *.
  assert (Hext : extends s s1).
  { split; [rewrite Hl'; by apply prefix_app_r
           | rewrite Hr'; by apply prefix_app_r]. }
  exists r. split_and!; [done | by eapply insert_at_delete | done |].
  split.
  - destruct (Hbuilt (mkState g2 (lists s) (routes s)))
      as (_ & o2 & p2 & ? & ? & ? & ?); [| simpl; lia |].
    { split; simpl; [by apply prefix_app_r | done]. }
    split; [done |]. exists o2, p2. done.
  - exists p, (Z.to_nat g0), (Z.to_nat gj).
    split_and!; try done; try lia.
    eapply extends_path_of; [done |]. unfold path_of. by rewrite Ho.
Qed.

Lemma mutated_mono s0 s s' r r' :
  extends s s' → mutated time_to s0 s r r' → mutated time_to s0 s' r r'.
Proof.
  intros Hext (Hb & p & i & j & Hp & Hp' & Hi & Hj & Hne).
  split; [by eapply built_mono |]. exists p, i, j.
  split_and!; first [done | lia | by eapply extends_path_of].
Qed.

Lemma mutated_weaken s00 s0 s r r' :
  extends s00 s0 → mutated time_to s0 s r r' → mutated time_to s00 s r r'.
Proof. intros Hext [Hb Hm]. split; [by eapply built_weaken | done]. Qed.

Lemma Mutate_Ok fuel children mutation_rate s children' s' :
  Mutate time_to fuel children mutation_rate s = Ok (children', s') →
  extends s s' ∧ length children' = length children ∧
  ∀ i r, children !! i = Some r →
    ∃ r', children' !! i = Some r' ∧
      ((r' = r ∧ ∃ u, u < 1 ∧ Qle_bool u mutation_rate = false)
       ∨ mutated time_to s s' r r').
Proof.
  unfold Mutate. intros Hrun.
  cut (extends s s' ∧ length children' = length children ∧
       (∀ i, (length (seq 0 (length children)) ≤ i)%nat →
             children' !! i = children !! i) ∧
       (∀ i r, (i < length (seq 0 (length children)))%nat →
          children !! i = Some r →
          ∃ r', children' !! i = Some r' ∧
            ((r' = r ∧ ∃ u, u < 1 ∧ Qle_bool u mutation_rate = false)
             ∨ mutated time_to s s' r r'))).
  { rewrite length_seq. intros (? & ? & _ & Hall). split_and!; [done..|].
    intros i r Hi. apply Hall; [|done]. by eapply lookup_lt_Some. }
  eapply (for_each_Ok_ind (λ pre cur s1,
    extends s s1 ∧ length cur = length children ∧
    (∀ i, (length pre ≤ i)%nat → cur !! i = children !! i) ∧
    (∀ i r, (i < length pre)%nat → children !! i = Some r →
       ∃ r', cur !! i = Some r' ∧
         ((r' = r ∧ ∃ u, u < 1 ∧ Qle_bool u mutation_rate = false)
          ∨ mutated time_to s s1 r r')))); [exact Hrun | |].
  { split_and!; [apply extends_refl | done | done |]. simpl. lia. }
  clear Hrun.
  intros pre k rest cur s1 cur' s2 Hseq (Hext & Hlen & Hrest & Hdone) Hstep.
  apply seq_split_index in Hseq as ->. rewrite length_app. simpl.
  apply mutate_one_Ok in Hstep
    as [(-> & Hs & Hkept) | (r0 & Hr0 & -> & Hext' & Hmut)].
  - pose proof (same_store_extends _ _ Hs) as Hext'.
    split_and!; [by eapply extends_trans | done | |].
    + intros i Hi. apply Hrest. lia.
    + intros i r Hi Hr. destruct (decide (i = length pre)) as [->|Hne].
      * exists r. rewrite Hrest by lia. auto.
      * destruct (Hdone i r) as (r' & Hr' & Hcase); [lia | done |].
        exists r'. split; [done |].
        destruct Hcase as [?|?]; [by left | right; by eapply mutated_mono].
  - split_and!; [by eapply extends_trans | by rewrite length_insert | |].
    + intros i Hi. rewrite list_lookup_insert_ne by lia. apply Hrest. lia.
    + intros i r Hi Hr. destruct (decide (i = length pre)) as [->|Hne].
      * exists (length (routes s1)).
        rewrite list_lookup_insert_eq by (by eapply lookup_lt_Some).
        split; [done |]. right. rewrite Hrest in Hr0 by lia.
        simplify_eq. by eapply mutated_weaken.
      * destruct (Hdone i r) as (r' & Hr' & Hcase); [lia | done |].
        exists r'. rewrite list_lookup_insert_ne by done. split; [done |].
        destruct Hcase as [?|?]; [by left | right; by eapply mutated_mono].
Qed.

(** *** The invariant of the population *)

Lemma valid_route_path station_list first_station s s' r p :
  extends s s' → valid_route station_list first_station s r →
  path_of s' r = Some p → valid_path station_list first_station p.
Proof.
  intros Hext (p' & Hp' & Hv) Hp.
  rewrite (extends_path_of _ _ _ _ Hext Hp') in Hp. by injection Hp as <-.
Qed.

Lemma Procreate_valid station_list first_station fuel parents elite_size s
  children s' :
  NoDup station_list →
  Forall (valid_route station_list first_station s) (row_Route <$> parents) →
  Procreate time_to fuel parents elite_size s = Ok (children, s') →
  extends s s' ∧ Forall (valid_route station_list first_station s') children.
Proof.
  intros Hnd Hvalid (bred & -> & _ & Hext & Hbred)%Procreate_Ok.
  split; [done |]. apply Forall_app. split.
  - apply Forall_take. eapply Forall_impl; [done |].
    intros r. by apply extends_valid_route.
  - eapply Forall_impl; [done |].
    intros r (_ & m & f & pm & pf & lo & hi & child & Hm & Hf & Hpm & Hpf
              & Hlo & _ & Hre & Hr).
    exists child. split; [done |].
    apply (recombine_valid station_list first_station pm pf lo hi);
      [done | lia | | | done].
    + eapply valid_route_path; [done | | done].
      by eapply (proj1 (Forall_forall _ _) Hvalid).
    + eapply valid_route_path; [done | | done].
      by eapply (proj1 (Forall_forall _ _) Hvalid).
Qed.

Lemma Mutate_valid station_list first_station fuel children mutation_rate s
  children' s' :
  Forall (valid_route station_list first_station s) children →
  Mutate time_to fuel children mutation_rate s = Ok (children', s') →
  extends s s' ∧ Forall (valid_route station_list first_station s') children'.
Proof.
  intros Hvalid (Hext & Hlen & Hall)%Mutate_Ok. split; [done |].
  apply Forall_lookup. intros i r' Hr'.
  destruct (lookup_lt_is_Some_2 children i) as [r Hr].
  { rewrite <- Hlen. by eapply lookup_lt_Some. }
  destruct (Hall i r Hr) as (r2 & Hr2 & Hcase). simplify_eq.
  pose proof (Forall_lookup_1 _ _ _ _ Hvalid Hr) as Hv.
  destruct Hcase as [[-> _] | (_ & p & a & b & Hp & Hp' & Ha & Hb & _)].
  - by eapply extends_valid_route.
  - exists (swap_items p a b). split; [done |].
    apply swap_items_valid; [lia | lia |].
    by eapply valid_route_path.
Qed.

Lemma CreateNextGeneration_Ok fuel previous_generation elite_size
  mutation_rate s next s' :
  CreateNextGeneration time_to fuel previous_generation elite_size
    mutation_rate s = Ok (next, s') →
  ∃ parents children s1 next_generation,
    SetParentsFitness previous_generation s = Ok (parents, s) ∧
    row_Route <$> parents = previous_generation ∧
    Procreate time_to fuel parents elite_size s = Ok (children, s1) ∧
    Mutate time_to fuel children mutation_rate s1
      = Ok (next_generation, s') ∧
    next ≡ₚ next_generation.
Proof.
  unfold CreateNextGeneration.
  intros (parents & s0 & Hset & Hrun)%bind_Ok.
  destruct (SetParentsFitness_Route _ _ _ _ Hset) as [-> Hroute].
  apply bind_Ok in Hrun as (children & s1 & Hpro & Hrun).
  apply bind_Ok in Hrun as (next_generation & s2 & Hmut & Hsort).
  apply SortRoutes_Ok in Hsort as [-> Hperm].
  exists parents, children, s1, next_generation. done.
Qed.

Lemma CreateNextGeneration_valid station_list first_station fuel
  previous_generation elite_size mutation_rate s next s' :
  NoDup station_list →
  Forall (valid_route station_list first_station s) previous_generation →
  CreateNextGeneration time_to fuel previous_generation elite_size
    mutation_rate s = Ok (next, s') →
  extends s s' ∧ Forall (valid_route station_list first_station s') next.
Proof.
  intros Hnd Hvalid
    (parents & children & s1 & ng & _ & Hroute & Hpro & Hmut & Hperm)
      %CreateNextGeneration_Ok.
  apply (Procreate_valid station_list first_station) in Hpro
    as [Hext1 Hv1]; [|done | by rewrite Hroute].
  apply (Mutate_valid station_list first_station) in Hmut
    as [Hext2 Hv2]; [|done].
  split; [by eapply extends_trans | by rewrite Hperm].
Qed.

(** *** The generations *)

Variable np_sqrt : Q → Q.

Lemma record_generation_Ok population best_route_gen mean_sigma_gen s hist s' :
  record_generation np_sqrt population best_route_gen mean_sigma_gen s
    = Ok (hist, s') →
  s' = s ∧ length hist.1 = S (length best_route_gen) ∧
  length hist.2 = S (length mean_sigma_gen).
Proof.
  unfold record_generation.
  intros (r & s1 & [_ ->]%lift_option_Ok & Hrun)%bind_Ok.
  apply bind_Ok in Hrun as (o & s1 & [_ ->]%get_route_Ok & Hrun).
  apply bind_Ok in Hrun as (ds & s1 & [-> _]%durations_of_Ok & Hrun).
  injection Hrun as <- <-. simpl. rewrite !length_app. simpl.
  split_and!; [done | lia | lia].
Qed.

Lemma first_generation_valid station_list first_station pop_size seed s
  population s' :
  first_generation time_to station_list first_station pop_size seed s
    = Ok (population, s') →
  extends s s' ∧
  Forall (valid_route station_list first_station s') population.
Proof.
  unfold first_generation.
  intros ([] & s1 & [= <-] & Hrun)%bind_Ok.
  apply bind_Ok in Hrun as (pop & s2 & Hinit & Hsort).
  apply (CreateInitialPopulation_Ok pop_size station_list first_station)
    in Hinit as [Hext Hvalid].
  apply SortRoutes_Ok in Hsort as [-> Hperm].
  split; [done | by rewrite Hperm].
Qed.

Lemma generations_valid station_list first_station fuel k elite_size
  mutation_rate population hist s population' hist' s' :
  NoDup station_list →
  Forall (valid_route station_list first_station s) population →
  generations time_to np_sqrt fuel k elite_size mutation_rate
    (population, hist) s = Ok ((population', hist'), s') →
  extends s s' ∧
  Forall (valid_route station_list first_station s') population'.
Proof.
  intros Hnd Hvalid Hrun. unfold generations in Hrun.
  eapply (for_each_Ok_ind
    (λ _ (a : list nat * (list Q * list (Q * Q))) s1, extends s s1 ∧
       Forall (valid_route station_list first_station s1) a.1)
    _ _ _ _ (population', hist')); [exact Hrun | by split; [apply extends_refl|] |].
  clear Hrun. intros _ _ _ [pop [b m]] s1 [pop' h'] s2 _ [Hext Hv].
  simpl in Hv.
  intros (pop2 & s3 & Hnext & Hrun)%bind_Ok.
  apply bind_Ok in Hrun as (h2 & s4 & [-> _]%record_generation_Ok & Heq).
  injection Heq as <- <- <-.
  apply (CreateNextGeneration_valid station_list first_station) in Hnext
    as [Hext' Hv']; [|done..].
  split; [by eapply extends_trans | done].
Qed.

Lemma generations_split fuel k n elite_size mutation_rate a s b s' :
  (0 ≤ k ≤ Z.max 0 n)%Z →
  generations time_to np_sqrt fuel n elite_size mutation_rate a s
    = Ok (b, s') →
  ∃ mid s_k,
    generations time_to np_sqrt fuel k elite_size mutation_rate a s
      = Ok (mid, s_k).
Proof.
  intros Hk. unfold generations, range.
  replace (Z.to_nat n) with (Z.to_nat k + (Z.to_nat n - Z.to_nat k))%nat
    by lia.
  rewrite seq_app, for_each_app.
  intros (mid & s_k & Hmid & _)%bind_Ok. eauto.
Qed.

(** C2. In a run of [GeneticAlgorithm] that returns, every generation
    [k = 0 .. n_generations] of the loop exists, and every candidate of its
    population has a path that starts with the start location and is a
    permutation of the location set, each location exactly once: the
    initial population has the property, crossover and mutation keep it. *)
Theorem evolution_keeps_paths_valid (fuel : nat)
  (station_list : list Station) (first_station : Station)
  (n_generations pop_size elite_size : Z) (mutation_rate : Q) (seed : Z)
  (s : state) result (s' : state) :
  NoDup station_list →
  GeneticAlgorithm time_to np_sqrt fuel station_list first_station
    n_generations pop_size elite_size mutation_rate seed s
    = Ok (result, s') →
  ∀ k, (0 ≤ k ≤ Z.max 0 n_generations)%Z →
    ∃ population hist s_k,
      evolve time_to np_sqrt fuel station_list first_station k pop_size
        elite_size mutation_rate seed s = Ok ((population, hist), s_k) ∧
      ∀ r, r ∈ population →
        ∃ p, path_of s_k r = Some p ∧ p !! 0%nat = Some first_station ∧
             p ≡ₚ station_list ∧ NoDup p.
Proof.
  intros Hnd Hrun k Hk. unfold GeneticAlgorithm in Hrun.
  apply bind_Ok in Hrun as ([pop_n hist_n] & s_n & Hevolve & _).
  unfold evolve in Hevolve |- *.
  apply bind_Ok in Hevolve as (pop0 & s0 & Hfirst & Hevolve).
  apply bind_Ok in Hevolve as (hist0 & s1 & Hrec & Hgen).
  destruct (generations_split _ k _ _ _ _ _ _ _ Hk Hgen)
    as ([pop_k hist_k] & s_k & Hgen_k).
  exists pop_k, hist_k, s_k. split.
  { rewrite (bind_eval _ _ _ _ _ Hfirst). by rewrite (bind_eval _ _ _ _ _ Hrec). }
  apply record_generation_Ok in Hrec as [-> _].
  apply (first_generation_valid station_list first_station) in Hfirst
    as [_ Hv0].
  apply (generations_valid station_list first_station) in Hgen_k
    as [_ Hvk]; [|done..].
  intros r Hr. destruct (proj1 (Forall_forall _ _) Hvk r Hr)
    as (p & Hp & Hp0 & Hperm).
  exists p. split_and!; [done..|]. by rewrite Hperm.
Qed.

(** C9. Crossover ([Procreate]) and mutation ([Mutate]) leave every list and
    every route object of the store as it was, so the path and the duration
    of every candidate they are given are unchanged.  What [Procreate]
    returns are the elite routes of the table, by reference, followed by
    bred children; what [Mutate] returns holds, position by position, either
    the route it was given or a mutated one.  A bred child and a mutated
    route are new route objects on new lists, with the duration computed
    from the new list at construction ([built]). *)
Theorem crossover_mutation_build_new (fuel : nat) (parents : list row)
  (elite_size : Z) (children : list nat) (mutation_rate : Q)
  (s : state) (out : list nat) (s' : state) :
  (Procreate time_to fuel parents elite_size s = Ok (out, s') →
     extends s s' ∧
     (∀ r p, path_of s r = Some p → path_of s' r = Some p) ∧
     ∀ i r, out !! i = Some r →
       ((i < Z.to_nat elite_size)%nat ∧
        (row_Route <$> parents) !! i = Some r)
       ∨ ((Z.to_nat elite_size ≤ i)%nat ∧
          crossed time_to (row_Route <$> parents) s s' r))
  ∧ (Mutate time_to fuel children mutation_rate s = Ok (out, s') →
     extends s s' ∧
     (∀ r p, path_of s r = Some p → path_of s' r = Some p) ∧
     length out = length children ∧
     ∀ i r, children !! i = Some r →
       ∃ r', out !! i = Some r' ∧ (r' = r ∨ mutated time_to s s' r r')).
Proof.
  split.
  - intros (bred & -> & Hlen & Hext & Hbred)%Procreate_Ok.
    split_and!; [done | intros r p; by apply extends_path_of |].
    intros i r Hi.
    assert (Htake : length (take (Z.to_nat elite_size) (row_Route <$> parents))
                    = Z.to_nat elite_size).
    { rewrite length_take, length_fmap. lia. }
    apply lookup_app_Some in Hi as [Hi | [Hge Hi]].
    + left. apply lookup_take_Some in Hi as [? ?]. done.
    + right. rewrite Htake in Hge, Hi. split; [done |].
      by eapply Forall_lookup_1 in Hbred.
  - intros (Hext & Hlen & Hall)%Mutate_Ok.
    split_and!; [done | intros r p; by apply extends_path_of | done |].
    intros i r Hr. destruct (Hall i r Hr) as (r' & Hr' & [[-> _]|Hmut]);
      eauto.
Qed.


Lemma random_seed_run seed g L R :
  random_seed seed (mkState g L R) = Ok (tt, mkState (rng_seed seed) L R).
Proof. done. Qed.


(** *** The stored durations *)

Lemma built_duration_stored s0 s r :
  built time_to s0 s r → duration_stored time_to s r.
Proof. intros (_ & o & p & ? & _ & ? & ?). by exists o, p. Qed.

Lemma extends_duration_stored s s' r :
  extends s s' → duration_stored time_to s r → duration_stored time_to s' r.
Proof.
  intros Hext (o & p & Ho & Hp & Hd). exists o, p.
  split_and!; [by eapply extends_routes | by eapply extends_lists | done].
Qed.

Lemma first_generation_stored station_list first_station pop_size seed s
  population s' :
  first_generation time_to station_list first_station pop_size seed s
    = Ok (population, s') →
  Forall (duration_stored time_to s') population.
Proof.
  unfold first_generation.
  intros ([] & s1 & _ & Hrun)%bind_Ok.
  apply bind_Ok in Hrun as (pop & s2 & Hinit & Hsort).
  apply SortRoutes_Ok in Hsort as [-> ->].
  unfold CreateInitialPopulation in Hinit.
  eapply (for_each_Ok_ind (λ _ population s3,
    Forall (duration_stored time_to s3) population)); [exact Hinit | done |].
  clear Hinit. intros pre x rest cur s3 cur' s4 _ Hall.
  intros (r & s5 & (Hext & Hb & _)%CreateRoute_valid & [= <- <-])%bind_Ok.
  apply Forall_app. split.
  - eapply Forall_impl; [done |]. intros r'.
    by apply extends_duration_stored.
  - constructor; [by eapply built_duration_stored | done].
Qed.

Lemma CreateNextGeneration_stored fuel previous_generation elite_size
  mutation_rate s next s' :
  Forall (duration_stored time_to s) previous_generation →
  CreateNextGeneration time_to fuel previous_generation elite_size
    mutation_rate s = Ok (next, s') →
  Forall (duration_stored time_to s') next.
Proof.
  intros Hstored
    (parents & children & s1 & ng & _ & Hroute & Hpro & Hmut & Hperm)
      %CreateNextGeneration_Ok.
  rewrite Hperm. subst previous_generation.
  apply Procreate_Ok in Hpro as (bred & -> & _ & Hext1 & Hbred).
  apply Mutate_Ok in Hmut as (Hext2 & Hlen & Hall).
  apply Forall_lookup. intros i r' Hr'.
  destruct (lookup_lt_is_Some_2
              (take (Z.to_nat elite_size) (row_Route <$> parents) ++ bred) i)
    as [r Hr].
  { rewrite <- Hlen. by eapply lookup_lt_Some. }
  destruct (Hall i r Hr) as (r2 & Hr2 & Hcase). simplify_eq.
  destruct Hcase as [[-> _] | [Hb _]];
    [|by eapply built_duration_stored].
  apply (extends_duration_stored s1); [done |].
  apply list_elem_of_lookup_2, elem_of_app in Hr as [Hr | Hr].
  - apply (extends_duration_stored s); [done |].
    apply subseteq_take in Hr. by eapply (proj1 (Forall_forall _ _) Hstored).
  - destruct (proj1 (Forall_forall _ _) Hbred r Hr) as [Hb _].
    by eapply built_duration_stored.
Qed.

Lemma generations_stored fuel k elite_size mutation_rate population hist s
  population' hist' s' :
  Forall (duration_stored time_to s) population →
  generations time_to np_sqrt fuel k elite_size mutation_rate
    (population, hist) s = Ok ((population', hist'), s') →
  Forall (duration_stored time_to s') population'.
Proof.
  intros Hstored Hrun. unfold generations in Hrun.
  eapply (for_each_Ok_ind
    (λ _ (a : list nat * (list Q * list (Q * Q))) s1,
       Forall (duration_stored time_to s1) a.1)
    _ _ _ _ (population', hist')); [exact Hrun | done |].
  clear Hrun. intros pre x rest [pop [b m]] s1 [pop' h'] s2 _ Hv.
  simpl in Hv.
  intros (pop2 & s3 & Hnext & Hrun)%bind_Ok.
  apply bind_Ok in Hrun as (h2 & s4 & [-> _]%record_generation_Ok & Heq).
  injection Heq as <- <- <-. by eapply CreateNextGeneration_stored.
Qed.

(** C6. The duration stored in a route when it is built is the sum, over
    [i = 0 .. n-2], of the durations from [path[i]] to [path[i+1]] read in
    the mapping of [path[i]] (every one of them is mapped), and running the
    summation again over the path gives the stored value.  This stays true
    of every candidate of every generation of a run: no path and no stored
    duration changes after construction. *)
Theorem stored_duration_is_sum_of_legs :
  (∀ (s : state) (l : nat) (p : list Station) (r : nat) (s' : state),
     lists s !! l = Some p →
     Route__init__ time_to l s = Ok (r, s') →
     ∃ o, routes s' !! r = Some o ∧ path o = l ∧ lists s' !! l = Some p ∧
          (∀ i, (S i < length p)%nat → is_Some (leg time_to p i)) ∧
          time_taken o == sum_of_legs time_to p ∧
          duration_loop time_to p (seq 0 (length p - 1)) 0
            = Ok (time_taken o))
  ∧ (∀ (fuel : nat) (station_list : list Station) (first_station : Station)
       (n_generations pop_size elite_size : Z) (mutation_rate : Q)
       (seed : Z) (s : state) result (s' : state),
       GeneticAlgorithm time_to np_sqrt fuel station_list first_station
         n_generations pop_size elite_size mutation_rate seed s
         = Ok (result, s') →
       ∀ k, (0 ≤ k ≤ Z.max 0 n_generations)%Z →
         ∃ population hist s_k,
           evolve time_to np_sqrt fuel station_list first_station k
             pop_size elite_size mutation_rate seed s
             = Ok ((population, hist), s_k) ∧
           ∀ r, r ∈ population →
             ∃ o p, routes s_k !! r = Some o ∧
                    lists s_k !! path o = Some p ∧
                    (∀ i, (S i < length p)%nat →
                          is_Some (leg time_to p i)) ∧
                    time_taken o == sum_of_legs time_to p ∧
                    duration_loop time_to p (seq 0 (length p - 1)) 0
                      = Ok (time_taken o)).
Proof.
  split.
  - intros s l p r s' Hl. rewrite (Route_init_run l s p Hl).
    destruct (duration_loop _ _ _ _) as [d|e|] eqn:Hrun; [|done|done].
    intros [= <- <-]. exists (mkRoute l d). simpl.
    destruct (duration_loop_sum _ _ Hrun).
    split_and!; [apply lookup_snoc | done..].
  - intros fuel station_list first_station n_generations pop_size elite_size
      mutation_rate seed s result s' Hrun k Hk.
    unfold GeneticAlgorithm in Hrun.
    apply bind_Ok in Hrun as ([pop_n hist_n] & s_n & Hevolve & _).
    unfold evolve in Hevolve |- *.
    apply bind_Ok in Hevolve as (pop0 & s0 & Hfirst & Hevolve).
    apply bind_Ok in Hevolve as (hist0 & s1 & Hrec & Hgen).
    destruct (generations_split _ k _ _ _ _ _ _ _ Hk Hgen)
      as ([pop_k hist_k] & s_k & Hgen_k).
    exists pop_k, hist_k, s_k. split.
    { rewrite (bind_eval _ _ _ _ _ Hfirst).
      by rewrite (bind_eval _ _ _ _ _ Hrec). }
    apply record_generation_Ok in Hrec as [-> _].
    apply first_generation_stored in Hfirst.
    apply generations_stored in Hgen_k; [|done].
    intros r Hr. destruct (proj1 (Forall_forall _ _) Hgen_k r Hr)
      as (o & p & Ho & Hp & Hd).
    destruct (duration_loop_sum _ _ Hd). exists o, p. done.
Qed.

(** *** Two runs side by side *)

Section TwoRuns.

Variables b1 c1 b2 c2 : nat.

Local Abbreviation lref := (same_list_ref b1 b2).
Local Abbreviation rref := (same_route_ref c1 c2).
Local Abbreviation simS := (sim b1 c1 b2 c2).
Local Abbreviation simM := (sim_M b1 c1 b2 c2).
Local Abbreviation simO := (sim_outcome b1 c1 b2 c2).

Lemma sim_ret {A B} (R : A → B → Prop) a1 a2 :
  R a1 a2 → simM R (mret a1) (mret a2).
Proof. intros Ha s1 s2 Hs. by split. Qed.

Lemma sim_bind {A1 A2 B1 B2} (R : A1 → A2 → Prop) (R' : B1 → B2 → Prop)
  (m1 : M A1) (m2 : M A2) (f1 : A1 → M B1) (f2 : A2 → M B2) :
  simM R m1 m2 →
  (∀ a1 a2, R a1 a2 → simM R' (f1 a1) (f2 a2)) →
  simM R' (m1 ≫= f1) (m2 ≫= f2).
Proof.
  intros Hm Hf s1 s2 Hs. specialize (Hm s1 s2 Hs).
  unfold mbind, M_bind. unfold sim_outcome in Hm.
  destruct (m1 s1) as [[a1 s1']| |], (m2 s2) as [[a2 s2']| |]; try done.
  destruct Hm as [Ha Hs']. by apply Hf.
Qed.

Lemma sim_raise {A B} (R : A → B → Prop) e : simM R (raise e) (raise e).
Proof. by intros s1 s2 Hs. Qed.

Lemma sim_diverge {A B} (R : A → B → Prop) : simM R diverge diverge.
Proof. by intros s1 s2 Hs. Qed.

Lemma sim_lift_option {A B} (R : A → B → Prop) e o1 o2 :
  option_Forall2 R o1 o2 → simM R (lift_option e o1) (lift_option e o2).
Proof.
  intros [a1 a2 Ha|]; [by apply sim_ret | apply sim_raise].
Qed.

Lemma sim_lift_outcome {A} (o : outcome A) :
  simM eq (lift_outcome o) (lift_outcome o).
Proof. intros s1 s2 Hs. by destruct o. Qed.

Lemma sim_for_each {A1 A2 B1 B2} (RA : A1 → A2 → Prop)
  (RB : B1 → B2 → Prop) (xs1 : list B1) (xs2 : list B2)
  (body1 : B1 → A1 → M A1) (body2 : B2 → A2 → M A2) a1 a2 :
  Forall2 RB xs1 xs2 → RA a1 a2 →
  (∀ x1 x2 a1 a2, RB x1 x2 → RA a1 a2 →
                  simM RA (body1 x1 a1) (body2 x2 a2)) →
  simM RA (for_each xs1 body1 a1) (for_each xs2 body2 a2).
Proof.
  intros Hxs Ha Hbody. revert a1 a2 Ha.
  induction Hxs as [|x1 x2 xs1 xs2 Hx _ IH]; intros a1 a2 Ha.
  - by apply sim_ret.
  - simpl. eapply sim_bind; [by apply Hbody | done].
Qed.

Lemma rref_inj r1 r2 r1' r2' : rref r1 r2 → rref r1' r2' → r1 = r1' ↔ r2 = r2'.
Proof. intros (i & -> & ->) (j & -> & ->). lia. Qed.

Lemma sim_lists_length s1 s2 :
  simS s1 s2 → lref (length (lists s1)) (length (lists s2)).
Proof.
  intros (_ & H1 & H2 & Hd & _). apply (f_equal length) in Hd.
  rewrite !length_drop in Hd. exists (length (lists s1) - b1)%nat. lia.
Qed.

Lemma sim_routes_length s1 s2 :
  simS s1 s2 → rref (length (routes s1)) (length (routes s2)).
Proof.
  intros (_ & _ & _ & _ & H1 & H2 & Hd). apply Forall2_length in Hd.
  rewrite !length_drop in Hd. exists (length (routes s1) - c1)%nat. lia.
Qed.

Lemma sim_new_list p : simM lref (new_list p) (new_list p).
Proof.
  intros s1 s2 Hs. split; [by apply sim_lists_length |].
  destruct Hs as (Hg & H1 & H2 & Hd & Hr1 & Hr2 & Hr). unfold sim. simpl.
  rewrite !length_app, !drop_app_le, Hd by done.
  split_and!; first [done | lia].
Qed.

Lemma sim_get_list l1 l2 : lref l1 l2 → simM eq (get_list l1) (get_list l2).
Proof.
  intros (i & -> & ->) s1 s2 Hs. unfold get_list.
  pose proof Hs as (_ & _ & _ & Hd & _).
  rewrite <- !lookup_drop, Hd.
  by destruct (drop b2 (lists s2) !! i).
Qed.

Lemma sim_set_list l1 l2 p :
  lref l1 l2 → simM eq (set_list l1 p) (set_list l2 p).
Proof.
  intros (i & -> & ->) s1 s2 (Hg & H1 & H2 & Hd & Hr). split; [done |].
  unfold sim. simpl. rewrite !length_insert, !drop_insert_ge by lia.
  replace (b1 + i - b1)%nat with i by lia.
  replace (b2 + i - b2)%nat with i by lia. by rewrite Hd.
Qed.

Lemma sim_new_route o1 o2 :
  same_route b1 b2 o1 o2 → simM rref (new_route o1) (new_route o2).
Proof.
  intros Ho s1 s2 Hs. split; [by apply sim_routes_length |].
  destruct Hs as (Hg & H1 & H2 & Hd & Hr1 & Hr2 & Hr). unfold sim. simpl.
  rewrite !length_app, !drop_app_le by done.
  split_and!; try first [done | lia].
  apply Forall2_app; [done | by constructor].
Qed.

Lemma sim_get_route r1 r2 :
  rref r1 r2 → simM (same_route b1 b2) (get_route r1) (get_route r2).
Proof.
  intros (i & -> & ->) s1 s2 Hs. unfold get_route.
  pose proof Hs as (_ & _ & _ & _ & _ & _ & Hr).
  rewrite <- !lookup_drop.
  destruct (drop c1 (routes s1) !! i) as [o1|] eqn:Ho1.
  - destruct (Forall2_lookup_l _ _ _ _ _ Hr Ho1) as (o2 & -> & Ho). done.
  - apply Forall2_length in Hr as Hlen.
    apply lookup_ge_None in Ho1. rewrite Hlen in Ho1.
    apply lookup_ge_None in Ho1. by rewrite Ho1.
Qed.

Lemma sim_random_random : simM eq random_random random_random.
Proof.
  intros s1 s2 (Hg & Hrest). unfold random_random. rewrite Hg.
  destruct (rng_random (gen s2)) as [u g]. split; [done |].
  by split.
Qed.

Lemma sim_random_randint a b :
  simM eq (random_randint a b) (random_randint a b).
Proof.
  intros s1 s2 (Hg & Hrest). unfold random_randint. rewrite Hg.
  case_decide; [|done].
  destruct (rng_randint a b (gen s2)) as [n g]. split; [done |].
  by split.
Qed.

Lemma sim_lift_option_eq {A} e (o : option A) :
  simM eq (lift_option e o) (lift_option e o).
Proof. apply sim_lift_option. destruct o; by constructor. Qed.

Lemma sim_list_copy l1 l2 :
  lref l1 l2 → simM lref (list_copy l1) (list_copy l2).
Proof.
  intros Hl. eapply sim_bind; [by apply sim_get_list |].
  intros p ? <-. apply sim_new_list.
Qed.

Lemma sim_list_slice l1 l2 a b :
  lref l1 l2 → simM eq (list_slice l1 a b) (list_slice l2 a b).
Proof.
  intros Hl. eapply sim_bind; [by apply sim_get_list |].
  intros p ? <-. by apply sim_ret.
Qed.

Lemma sim_list_len l1 l2 : lref l1 l2 → simM eq (list_len l1) (list_len l2).
Proof.
  intros Hl. eapply sim_bind; [by apply sim_get_list |].
  intros p ? <-. by apply sim_ret.
Qed.

Lemma sim_list_getitem l1 l2 i :
  lref l1 l2 → simM eq (list_getitem l1 i) (list_getitem l2 i).
Proof.
  intros Hl. eapply sim_bind; [by apply sim_get_list |].
  intros p ? <-. apply sim_lift_option_eq.
Qed.

Lemma sim_list_setitem l1 l2 i x :
  lref l1 l2 → simM eq (list_setitem l1 i x) (list_setitem l2 i x).
Proof.
  intros Hl. eapply sim_bind; [by apply sim_get_list |].
  intros p ? <-. case_decide; [by apply sim_set_list | apply sim_raise].
Qed.

Lemma sim_list_remove l1 l2 x :
  lref l1 l2 → simM eq (list_remove l1 x) (list_remove l2 x).
Proof.
  intros Hl. eapply sim_bind; [by apply sim_get_list |].
  intros p ? <-. eapply sim_bind; [apply sim_lift_option_eq |].
  intros p' ? <-. by apply sim_set_list.
Qed.

Lemma sim_list_insert l1 l2 i x :
  lref l1 l2 → simM eq (list_insert l1 i x) (list_insert l2 i x).
Proof.
  intros Hl. eapply sim_bind; [by apply sim_get_list |].
  intros p ? <-. by apply sim_set_list.
Qed.

Lemma sim_list_index l1 l2 x :
  lref l1 l2 → simM eq (list_index l1 x) (list_index l2 x).
Proof.
  intros Hl. eapply sim_bind; [by apply sim_get_list |].
  intros p ? <-. apply sim_lift_option_eq.
Qed.

Lemma sim_random_sample l1 l2 k :
  lref l1 l2 → simM lref (random_sample l1 k) (random_sample l2 k).
Proof.
  intros Hl. eapply sim_bind; [by apply sim_get_list |].
  intros p ? <-. case_decide; [|apply sim_raise].
  eapply (sim_bind eq); [|intros q ? <-; apply sim_new_list].
  intros s1 s2 (Hg & Hrest). rewrite Hg.
  destruct (rng_sample p k (gen s2)) as [q g]. split; [done |]. by split.
Qed.

Lemma sim_Route_init l1 l2 :
  lref l1 l2 → simM rref (Route__init__ time_to l1) (Route__init__ time_to l2).
Proof.
  intros Hl. eapply sim_bind; [by apply sim_get_list |].
  intros p ? <-. eapply sim_bind; [apply sim_lift_outcome |].
  intros d ? <-. by apply sim_new_route.
Qed.

Lemma sim_CreateRoute station_list first_station :
  simM rref (CreateRoute time_to station_list first_station)
    (CreateRoute time_to station_list first_station).
Proof.
  eapply sim_bind; [apply sim_new_list |]. intros l1 l2 Hl.
  eapply sim_bind; [by apply sim_list_remove |]. intros _ _ _.
  eapply sim_bind; [by apply sim_list_len |]. intros n ? <-.
  eapply sim_bind; [by apply sim_random_sample |]. intros q1 q2 Hq.
  eapply sim_bind; [by apply sim_list_insert |]. intros _ _ _.
  by apply sim_Route_init.
Qed.

Lemma Forall2_eq_refl {A} (l : list A) : Forall2 eq l l.
Proof. induction l; by constructor. Qed.

Lemma sim_CreateInitialPopulation pop_size station_list first_station :
  simM (Forall2 rref)
    (CreateInitialPopulation time_to pop_size station_list first_station)
    (CreateInitialPopulation time_to pop_size station_list first_station).
Proof.
  apply (sim_for_each _ eq); [apply Forall2_eq_refl | constructor |].
  intros _ _ pop1 pop2 _ Hpop.
  eapply sim_bind; [apply sim_CreateRoute |]. intros r1 r2 Hr.
  apply sim_ret. apply Forall2_app; [done | by constructor].
Qed.

Lemma sim_durations_of pop1 pop2 :
  Forall2 rref pop1 pop2 → simM eq (durations_of pop1) (durations_of pop2).
Proof.
  intros Hpop. apply (sim_for_each _ rref); [done | done |].
  intros r1 r2 ds ? Hr <-.
  eapply sim_bind; [by apply sim_get_route |]. intros o1 o2 [_ Ht].
  apply sim_ret. by rewrite Ht.
Qed.

Lemma insert_by_key_rel (x1 x2 : Q * nat) l1 l2 :
  x1.1 = x2.1 → rref x1.2 x2.2 →
  Forall2 (λ y1 y2, y1.1 = y2.1 ∧ rref y1.2 y2.2) l1 l2 →
  Forall2 (λ y1 y2, y1.1 = y2.1 ∧ rref y1.2 y2.2)
    (insert_by_key x1 l1) (insert_by_key x2 l2).
Proof.
  intros Hk Hr Hl. induction Hl as [|y1 y2 l1 l2 [Hy Hy'] Hl IH]; simpl.
  - by repeat constructor.
  - rewrite Hk, Hy. destruct (Qle_bool x2.1 y2.1).
    + by repeat constructor.
    + by constructor.
Qed.

Lemma sort_by_key_rel keys pop1 pop2 :
  Forall2 rref pop1 pop2 →
  Forall2 rref (sort_by_key (zip keys pop1)).*2
    (sort_by_key (zip keys pop2)).*2.
Proof.
  intros Hpop.
  assert (Hzip : Forall2 (λ y1 y2 : Q * nat, y1.1 = y2.1 ∧ rref y1.2 y2.2)
                   (zip keys pop1) (zip keys pop2)).
  { revert keys. induction Hpop; intros [|k keys]; simpl;
      by repeat constructor. }
  assert (Hsort : Forall2 (λ y1 y2 : Q * nat, y1.1 = y2.1 ∧ rref y1.2 y2.2)
            (sort_by_key (zip keys pop1)) (sort_by_key (zip keys pop2))).
  { induction Hzip as [|y1 y2 l1 l2 [Hy Hy'] _ IH]; simpl; [constructor |].
    by apply insert_by_key_rel. }
  apply Forall2_fmap. eapply Forall2_impl; [done |]. by intros ? ? [_ ?].
Qed.

Lemma sim_SortRoutes pop1 pop2 :
  Forall2 rref pop1 pop2 →
  simM (Forall2 rref) (SortRoutes pop1) (SortRoutes pop2).
Proof.
  intros Hpop. eapply sim_bind; [by apply sim_durations_of |].
  intros keys ? <-. apply sim_ret. by apply sort_by_key_rel.
Qed.

Lemma zip_rows_rel pop1 pop2 fs cs ds :
  Forall2 rref pop1 pop2 →
  Forall2 (same_row c1 c2) (zip_rows pop1 fs cs ds) (zip_rows pop2 fs cs ds).
Proof.
  intros Hpop. revert fs cs ds.
  induction Hpop as [|r1 r2 pop1 pop2 Hr _ IH]; intros [|f fs] [|c cs] [|d ds];
    simpl; try constructor; [by repeat split | apply IH].
Qed.

Lemma sim_SetParentsFitness pop1 pop2 :
  Forall2 rref pop1 pop2 →
  simM (Forall2 (same_row c1 c2)) (SetParentsFitness pop1)
    (SetParentsFitness pop2).
Proof.
  intros Hpop. eapply sim_bind; [by apply sim_durations_of |].
  intros ds ? <-. apply sim_ret. by apply zip_rows_rel.
Qed.

Lemma Forall2_removelast {A B} (R : A → B → Prop) l1 l2 :
  Forall2 R l1 l2 → Forall2 R (removelast l1) (removelast l2).
Proof.
  induction 1 as [|x1 x2 l1 l2 Hx Hl IH]; [constructor |]. simpl.
  destruct Hl; [constructor | by constructor].
Qed.

Lemma set_last_rel father1 father2 x1 x2 :
  Forall2 rref father1 father2 → rref x1 x2 →
  option_Forall2 (Forall2 rref) (set_last father1 x1) (set_last father2 x2).
Proof.
  intros Hf Hx. unfold set_last. destruct Hf as [|y1 y2 l1 l2 Hy Hl].
  - constructor.
  - constructor. apply Forall2_app; [|by repeat constructor].
    apply (Forall2_removelast _ (y1 :: l1) (y2 :: l2)). by constructor.
Qed.

Lemma sim_rescan rest1 rest2 u father1 father2 :
  Forall2 (same_row c1 c2) rest1 rest2 → Forall2 rref father1 father2 →
  simM (Forall2 rref) (rescan rest1 u father1) (rescan rest2 u father2).
Proof.
  intros Hrest Hf.
  induction Hrest as [|r1 r2 rest1 rest2 (Hr & _ & _ & Hcdf) _ IH]; simpl.
  - by apply sim_ret.
  - rewrite Hcdf. destruct (Qle_bool u (row_CDF r2)); [|done].
    apply sim_lift_option. by apply set_last_rel.
Qed.

Lemma sim_reroll_father fuel parents1 parents2 mother1 mother2
  father1 father2 :
  Forall2 (same_row c1 c2) parents1 parents2 →
  Forall2 rref mother1 mother2 → Forall2 rref father1 father2 →
  simM (Forall2 rref) (reroll_father fuel parents1 mother1 father1)
    (reroll_father fuel parents2 mother2 father2).
Proof.
  intros Hp Hm. revert father1 father2.
  induction fuel as [|fuel IH]; intros father1 father2 Hf;
    rewrite !reroll_father_eq;
    (eapply sim_bind; [by apply sim_lift_option, Forall2_last |]);
    intros m1 m2 Hm12;
    (eapply sim_bind; [by apply sim_lift_option, Forall2_last |]);
    intros f1 f2 Hf12;
    pose proof (rref_inj _ _ _ _ Hm12 Hf12) as Hinj;
    destruct (decide (m1 = f1)), (decide (m2 = f2)); try tauto;
    try (by apply sim_ret); try apply sim_diverge.
  eapply sim_bind; [apply sim_random_random |]. intros u ? <-.
  eapply sim_bind; [by apply sim_rescan |]. intros f1' f2' Hf'.
  by apply IH.
Qed.

Lemma sim_scan_parents fuel parents1 parents2 rest1 rest2 pick_mother
  pick_father mother_selected father_selected mother1 mother2
  father1 father2 :
  Forall2 (same_row c1 c2) parents1 parents2 →
  Forall2 (same_row c1 c2) rest1 rest2 →
  Forall2 rref mother1 mother2 → Forall2 rref father1 father2 →
  simM (λ mf1 mf2, Forall2 rref mf1.1 mf2.1 ∧ Forall2 rref mf1.2 mf2.2)
    (scan_parents fuel parents1 rest1 pick_mother pick_father
       mother_selected father_selected mother1 father1)
    (scan_parents fuel parents2 rest2 pick_mother pick_father
       mother_selected father_selected mother2 father2).
Proof.
  intros Hp Hrest. revert mother_selected father_selected mother1 mother2
    father1 father2.
  induction Hrest as [|r1 r2 rest1 rest2 (Hr & _ & _ & Hcdf) _ IH];
    intros msel fsel mother1 mother2 father1 father2 Hm Hf.
  { by apply sim_ret. }
  cbn [scan_parents]. rewrite Hcdf.
  destruct (Qle_bool pick_mother (row_CDF r2) && negb msel),
    (Qle_bool pick_father (row_CDF r2) && negb fsel); simpl;
    repeat match goal with
    | |- context [if ?b then _ else _] => destruct b
    end;
    first
      [ apply IH; first [done | apply Forall2_app; by repeat constructor]
      | eapply sim_bind;
        [ apply sim_reroll_father;
          first [done | apply Forall2_app; by repeat constructor]
        | intros f1' f2' Hf'; apply sim_ret; split;
          first [done | apply Forall2_app; by repeat constructor] ] ].
Qed.

Lemma sim_SelectParents fuel parents1 parents2 elite_size :
  Forall2 (same_row c1 c2) parents1 parents2 →
  simM (λ mf1 mf2, Forall2 rref mf1.1 mf2.1 ∧ Forall2 rref mf1.2 mf2.2)
    (SelectParents fuel parents1 elite_size)
    (SelectParents fuel parents2 elite_size).
Proof.
  intros Hp. unfold SelectParents.
  rewrite (Forall2_length _ _ _ Hp).
  apply (sim_for_each _ eq); [apply Forall2_eq_refl | by split |].
  intros _ _ [m1 f1] [m2 f2] _ [Hm Hf]. simpl in *.
  eapply sim_bind; [apply sim_random_random |]. intros u1 ? <-.
  eapply sim_bind; [apply sim_random_random |]. intros u2 ? <-.
  by apply sim_scan_parents.
Qed.

Lemma sim_reroll_gene fuel hi gene0 gene1 :
  simM eq (reroll_gene fuel hi gene0 gene1) (reroll_gene fuel hi gene0 gene1).
Proof.
  revert gene1. induction fuel as [|fuel IH]; intros gene1;
    rewrite reroll_gene_eq; case_decide;
    try (by apply sim_ret); try apply sim_diverge.
  eapply sim_bind; [apply sim_random_randint |]. intros g ? <-. apply IH.
Qed.

Lemma sim_draw_genes fuel n :
  simM eq (draw_genes fuel n) (draw_genes fuel n).
Proof.
  eapply sim_bind; [apply sim_random_randint |]. intros g0 ? <-.
  eapply sim_bind; [apply sim_random_randint |]. intros g1 ? <-.
  eapply sim_bind; [apply sim_reroll_gene |]. intros g ? <-.
  by apply sim_ret.
Qed.

Lemma sim_splice m1 m2 f1 f2 lo hi :
  lref m1 m2 → lref f1 f2 →
  simM lref (splice m1 f1 lo hi) (splice m2 f2 lo hi).
Proof.
  intros Hm Hf.
  eapply sim_bind; [by apply sim_list_copy |]. intros ch1 ch2 Hch.
  eapply sim_bind; [by apply sim_list_slice |]. intros seg ? <-.
  eapply (sim_bind eq).
  { apply (sim_for_each _ eq); [apply Forall2_eq_refl | done |].
    intros gene ? [] [] <- _. by apply sim_list_remove. }
  intros _ _ _.
  eapply sim_bind; [by apply sim_list_slice |]. intros seg' ? <-.
  eapply (sim_bind eq).
  { apply (sim_for_each _ eq); [apply Forall2_eq_refl | done |].
    intros gene ? [] [] <- _.
    eapply sim_bind; [by apply sim_list_index |]. intros i ? <-.
    by apply sim_list_insert. }
  intros _ _ _. by apply sim_ret.
Qed.

Lemma sim_mate fuel mother1 mother2 father1 father2 mating :
  Forall2 rref mother1 mother2 → Forall2 rref father1 father2 →
  simM rref (mate time_to fuel mother1 father1 mating)
    (mate time_to fuel mother2 father2 mating).
Proof.
  intros Hm Hf.
  eapply sim_bind; [by apply sim_lift_option, Forall2_lookup |].
  intros f1 f2 Hf12.
  eapply sim_bind; [by apply sim_get_route |]. intros fo1 fo2 [Hfp _].
  eapply sim_bind; [by apply sim_list_len |]. intros n ? <-.
  eapply sim_bind; [apply sim_draw_genes |]. intros [g0 g1] ? <-.
  eapply sim_bind; [by apply sim_lift_option, Forall2_lookup |].
  intros m1 m2 Hm12.
  eapply sim_bind; [by apply sim_get_route |]. intros mo1 mo2 [Hmp _].
  eapply sim_bind; [by apply sim_splice |]. intros ch1 ch2 Hch.
  by apply sim_Route_init.
Qed.

Lemma sim_Procreate fuel parents1 parents2 elite_size :
  Forall2 (same_row c1 c2) parents1 parents2 →
  simM (Forall2 rref) (Procreate time_to fuel parents1 elite_size)
    (Procreate time_to fuel parents2 elite_size).
Proof.
  intros Hp. eapply (sim_bind (Forall2 rref)).
  { apply (sim_for_each _ eq); [apply Forall2_eq_refl | constructor |].
    intros elite ? ch1 ch2 <- Hch.
    eapply sim_bind; [by apply sim_lift_option, Forall2_lookup |].
    intros r1 r2 [Hr _]. apply sim_ret.
    apply Forall2_app; [done | by constructor]. }
  intros ch1 ch2 Hch.
  eapply sim_bind; [by apply sim_SelectParents |].
  intros [m1 f1] [m2 f2] [Hm Hf]. simpl in *.
  rewrite (Forall2_length _ _ _ Hm).
  apply (sim_for_each _ eq); [apply Forall2_eq_refl | done |].
  intros mating ? c1' c2' <- Hc.
  eapply sim_bind; [by apply sim_mate |]. intros r1 r2 Hr.
  apply sim_ret. apply Forall2_app; [done | by constructor].
Qed.

Lemma sim_mutate_one fuel mutation_rate child children1 children2 :
  Forall2 rref children1 children2 →
  simM (Forall2 rref) (mutate_one time_to fuel mutation_rate child children1)
    (mutate_one time_to fuel mutation_rate child children2).
Proof.
  intros Hc.
  eapply sim_bind; [apply sim_random_random |]. intros u ? <-.
  destruct (Qle_bool u mutation_rate); [|by apply sim_ret].
  eapply sim_bind; [by apply sim_lift_option, Forall2_lookup |].
  intros r1 r2 Hr.
  eapply sim_bind; [by apply sim_get_route |]. intros o1 o2 [Hpath _].
  eapply sim_bind; [by apply sim_list_copy |]. intros p1 p2 Hp.
  eapply sim_bind; [by apply sim_list_len |]. intros n ? <-.
  eapply sim_bind; [apply sim_draw_genes |]. intros [g0 g1] ? <-.
  eapply sim_bind; [by apply sim_list_getitem |]. intros x1 ? <-.
  eapply sim_bind; [by apply sim_list_getitem |]. intros x0 ? <-.
  eapply sim_bind; [by apply sim_list_setitem |]. intros _ _ _.
  eapply sim_bind; [by apply sim_list_setitem |]. intros _ _ _.
  eapply sim_bind; [by apply sim_Route_init |]. intros n1 n2 Hn.
  apply sim_ret. unfold insert_at.
  apply Forall2_app; [by apply Forall2_take, Forall2_delete |].
  constructor; [done |]. by apply Forall2_drop, Forall2_delete.
Qed.

Lemma sim_Mutate fuel children1 children2 mutation_rate :
  Forall2 rref children1 children2 →
  simM (Forall2 rref) (Mutate time_to fuel children1 mutation_rate)
    (Mutate time_to fuel children2 mutation_rate).
Proof.
  intros Hc. unfold Mutate. rewrite (Forall2_length _ _ _ Hc).
  apply (sim_for_each _ eq); [apply Forall2_eq_refl | done |].
  intros child ? ch1 ch2 <- Hch. by apply sim_mutate_one.
Qed.

Lemma sim_CreateNextGeneration fuel pop1 pop2 elite_size mutation_rate :
  Forall2 rref pop1 pop2 →
  simM (Forall2 rref)
    (CreateNextGeneration time_to fuel pop1 elite_size mutation_rate)
    (CreateNextGeneration time_to fuel pop2 elite_size mutation_rate).
Proof.
  intros Hpop.
  eapply sim_bind; [by apply sim_SetParentsFitness |]. intros t1 t2 Ht.
  eapply sim_bind; [by apply sim_Procreate |]. intros ch1 ch2 Hch.
  eapply sim_bind; [by apply sim_Mutate |]. intros n1 n2 Hn.
  by apply sim_SortRoutes.
Qed.

Lemma sim_record_generation pop1 pop2 best_route_gen mean_sigma_gen :
  Forall2 rref pop1 pop2 →
  simM eq
    (record_generation np_sqrt pop1 best_route_gen mean_sigma_gen)
    (record_generation np_sqrt pop2 best_route_gen mean_sigma_gen).
Proof.
  intros Hpop.
  eapply sim_bind; [by apply sim_lift_option, Forall2_lookup |].
  intros r1 r2 Hr.
  eapply sim_bind; [by apply sim_get_route |]. intros o1 o2 [_ Ht].
  eapply sim_bind; [by apply sim_durations_of |]. intros ds ? <-.
  apply sim_ret. by rewrite Ht.
Qed.

Lemma sim_generations fuel k elite_size mutation_rate pop1 pop2 hist :
  Forall2 rref pop1 pop2 →
  simM (λ a1 a2, Forall2 rref a1.1 a2.1 ∧ a1.2 = a2.2)
    (generations time_to np_sqrt fuel k elite_size mutation_rate
       (pop1, hist))
    (generations time_to np_sqrt fuel k elite_size mutation_rate
       (pop2, hist)).
Proof.
  intros Hpop. unfold generations.
  apply (sim_for_each _ eq); [apply Forall2_eq_refl | by split |].
  intros _ _ [p1 [b m]] [p2 [b' m']] _ [Hp Hh]. simpl in Hp, Hh.
  injection Hh as <- <-.
  eapply sim_bind; [by apply sim_CreateNextGeneration |]. intros n1 n2 Hn.
  eapply sim_bind; [by apply sim_record_generation |]. intros h ? <-.
  by apply sim_ret.
Qed.

Lemma sim_histories o1 o2 :
  simO (λ x1 x2 : list Q * list (Q * Q) * list (row * Q),
          x1.1.1 = x2.1.1 ∧ x1.1.2 = x2.1.2) o1 o2 →
  histories o1 = histories o2.
Proof.
  destruct o1 as [[[[b m] t] s]| |], o2 as [[[[b' m'] t'] s']| |];
    simpl; try done.
  - by intros [[-> ->] _].
  - by intros ->.
Qed.

Lemma sim_GeneticAlgorithm fuel station_list first_station n_generations
  pop_size elite_size mutation_rate seed g1 L1 R1 g2 L2 R2 :
  b1 = length L1 → c1 = length R1 → b2 = length L2 → c2 = length R2 →
  histories
    (GeneticAlgorithm time_to np_sqrt fuel station_list first_station
       n_generations pop_size elite_size mutation_rate seed
       (mkState g1 L1 R1))
  = histories
      (GeneticAlgorithm time_to np_sqrt fuel station_list first_station
         n_generations pop_size elite_size mutation_rate seed
         (mkState g2 L2 R2)).
Proof.
  intros Hb1 Hc1 Hb2 Hc2.
  unfold GeneticAlgorithm, evolve, first_generation.
  rewrite !bind_assoc.
  rewrite !(bind_eval _ _ _ _ _ (random_seed_run seed _ _ _)).
  apply sim_histories.
  refine ((_ : simM _ _ _) _ _ _).
  - eapply (sim_bind (Forall2 rref)).
    { eapply sim_bind; [apply sim_CreateInitialPopulation |].
      intros p1 p2 Hp. by apply sim_SortRoutes. }
    intros p1 p2 Hp.
    eapply (sim_bind (λ a1 a2, Forall2 rref a1.1 a2.1 ∧ a1.2 = a2.2)).
    { eapply sim_bind; [by apply sim_record_generation |]. intros h ? <-.
      by apply sim_generations. }
    intros [q1 [b m]] [q2 [b' m']] [Hq Hh]. simpl in Hq, Hh.
    injection Hh as <- <-.
    eapply sim_bind; [by apply sim_SetParentsFitness |]. intros t1 t2 Ht.
    eapply (sim_bind eq).
    { apply sim_durations_of. apply Forall2_fmap.
      eapply Forall2_impl; [done |]. by intros ? ? [? _]. }
    intros ds ? <-. by apply sim_ret.
  - unfold sim. simpl. subst.
    rewrite !drop_all. by split_and!.
Qed.

End TwoRuns.

(** C4. With the same arguments, seed included, two runs of
    [GeneticAlgorithm] end the same way and, when they return, give the
    same history of best durations and the same history of means and
    standard deviations, whatever the state of the generator and whatever
    the contents of the store when each of them starts. *)
Theorem same_seed_same_histories (fuel : nat) (station_list : list Station)
  (first_station : Station) (n_generations pop_size elite_size : Z)
  (mutation_rate : Q) (seed : Z) (s1 s2 : state) :
  histories
    (GeneticAlgorithm time_to np_sqrt fuel station_list first_station
       n_generations pop_size elite_size mutation_rate seed s1)
  = histories
      (GeneticAlgorithm time_to np_sqrt fuel station_list first_station
         n_generations pop_size elite_size mutation_rate seed s2).
Proof.
  destruct s1 as [g1 L1 R1], s2 as [g2 L2 R2].
  by apply (sim_GeneticAlgorithm (length L1) (length R1) (length L2)
              (length R2)).
Qed.

End Table.

End Properties.

(** ** The properties on the example data *)

Lemma crossover_scenario_witness :
  splice 0 1 2 5 ex_parents =
    Ok (2%nat,
        mkState (RS := cycle_rng) 0%nat
          [[0; 1; 2; 3; 4; 5]; [0; 5; 1; 4; 3; 2]; [0; 2; 1; 4; 3; 5]]%nat
          []).
Proof.
  apply (crossover_scenario ex_parents 0 1 0 1 2 3 4 5)%nat.
  - apply (bool_decide_unpack _). vm_compute. exact I.
  - reflexivity.
  - reflexivity.
Defined.

Lemma Route_init_missing_distance_witness :
  (∃ r s', Route__init__ ex_time_to 0 ex_store = Ok (r, s'))
  ∧ (∃ k, Route__init__ ex_time_to_gap 0 ex_store = Raise (KeyError k)).
Proof.
  split.
  - apply (Route_init_missing_distance ex_time_to ex_store 0
             [0; 2; 1; 3]%nat); [reflexivity |].
    intros i a b Ha Hb.
    destruct i as [|[|[|i]]]; simplify_eq/=;
      apply (bool_decide_unpack _); vm_compute; exact I.
  - apply (Route_init_missing_distance ex_time_to_gap ex_store 0
             [0; 2; 1; 3]%nat); [reflexivity |].
    exists 1%nat, 2%nat, 1%nat. split_and!; [done | done | by vm_compute].
Defined.


Lemma evolution_keeps_paths_valid_witness :
  ∃ population hist s_k,
    evolve ex_time_to ex_sqrt 5 [0; 1; 2; 3]%nat 0%nat 2 4 1 (1 # 2) 7
      ex_empty = Ok ((population, hist), s_k) ∧
    ∀ r, r ∈ population →
      ∃ p, path_of s_k r = Some p ∧ p !! 0%nat = Some 0%nat ∧
           p ≡ₚ [0; 1; 2; 3]%nat ∧ NoDup p.
Proof.
  destruct (GeneticAlgorithm ex_time_to ex_sqrt 5 [0; 1; 2; 3]%nat 0%nat
              2 4 1 (1 # 2) 7 ex_empty) as [[result s']| |] eqn:Hrun;
    [| vm_compute in Hrun; discriminate Hrun
     | vm_compute in Hrun; discriminate Hrun].
  apply (evolution_keeps_paths_valid ex_time_to ex_sqrt 5 [0; 1; 2; 3]%nat
           0%nat 2 4 1 (1 # 2) 7 ex_empty result s').
  - apply (bool_decide_unpack _). vm_compute. exact I.
  - exact Hrun.
  - lia.
Defined.






Lemma crossover_mutation_build_new_witness :
  (∃ out s', Procreate ex_time_to 5 ex_table 1 ex_gen0 = Ok (out, s') ∧
             extends ex_gen0 s')
  ∧ (∃ out s', Mutate ex_time_to 5 ex_population (1 # 2) ex_gen0
               = Ok (out, s') ∧ extends ex_gen0 s' ∧
               length out = length ex_population).
Proof.
  split.
  - destruct (Procreate ex_time_to 5 ex_table 1 ex_gen0)
      as [[out s']| |] eqn:Hrun;
      [| vm_compute in Hrun; discriminate Hrun
       | vm_compute in Hrun; discriminate Hrun].
    exists out, s'. split; [reflexivity |].
    exact (proj1 (proj1 (crossover_mutation_build_new ex_time_to 5 ex_table
                           1 ex_population (1 # 2) ex_gen0 out s') Hrun)).
  - destruct (Mutate ex_time_to 5 ex_population (1 # 2) ex_gen0)
      as [[out s']| |] eqn:Hrun;
      [| vm_compute in Hrun; discriminate Hrun
       | vm_compute in Hrun; discriminate Hrun].
    exists out, s'. split; [reflexivity |].
    destruct (proj2 (crossover_mutation_build_new ex_time_to 5 ex_table
                       1 ex_population (1 # 2) ex_gen0 out s') Hrun)
      as (Hext & _ & Hlen & _).
    split; [exact Hext | exact Hlen].
Defined.

Lemma stored_duration_is_sum_of_legs_witness :
  (∃ o, routes (mkState (RS := cycle_rng) 0%nat [[0; 2; 1; 3]]%nat
                  [mkRoute 0 17]) !! 0%nat = Some o ∧
        path o = 0%nat ∧
        time_taken o == sum_of_legs ex_time_to [0; 2; 1; 3]%nat)
  ∧ (∃ population hist s_k,
       evolve ex_time_to ex_sqrt 5 [0; 1; 2; 3]%nat 0%nat 2 4 1 (1 # 2) 7
         ex_empty = Ok ((population, hist), s_k) ∧
       ∀ r, r ∈ population →
         ∃ o p, routes s_k !! r = Some o ∧ lists s_k !! path o = Some p ∧
                time_taken o == sum_of_legs ex_time_to p).
Proof.
  split.
  - destruct (proj1 (stored_duration_is_sum_of_legs ex_time_to ex_sqrt)
                ex_store 0%nat [0; 2; 1; 3]%nat 0%nat
                (mkState (RS := cycle_rng) 0%nat [[0; 2; 1; 3]]%nat
                   [mkRoute 0 17]))
      as (o & Ho & Hpath & _ & _ & Hsum & _).
    + reflexivity.
    + vm_compute. reflexivity.
    + exists o. split; [exact Ho | split; [exact Hpath | exact Hsum]].
  - destruct (GeneticAlgorithm ex_time_to ex_sqrt 5 [0; 1; 2; 3]%nat 0%nat
                2 4 1 (1 # 2) 7 ex_empty) as [[result s']| |] eqn:Hrun;
      [| vm_compute in Hrun; discriminate Hrun
       | vm_compute in Hrun; discriminate Hrun].
    destruct (proj2 (stored_duration_is_sum_of_legs ex_time_to ex_sqrt)
                5%nat [0; 1; 2; 3]%nat 0%nat 2%Z 4%Z 1%Z (1 # 2) 7%Z
                ex_empty result s' Hrun 2%Z ltac:(lia))
      as (population & hist & s_k & Hev & Hall).
    exists population, hist, s_k. split; [exact Hev |].
    intros r Hr. destruct (Hall r Hr) as (o & p & Ho & Hp & _ & Hsum & _).
    exists o, p. split; [exact Ho | split; [exact Hp | exact Hsum]].
Defined.
